(** * markov: a word-level Markov chain text generator

    A shallow embedding of [include/chain.hh] and [src/chain.cc]
    (namespace [markov], class [chain]) together with the properties of the
    chain that its specification states.

    Modelling conventions.
    - [std::string] is [string]; [std::deque<std::string>] (the [prefix]
      typedef) and [std::vector<std::string>] are [list string].
    - [chain] derives from [std::map<prefix, std::vector<std::string>>]: the
      inherited map is a [gmap], and iteration ([begin()] .. [end()]) visits
      the entries in increasing key order ([std::less] on deques, that is
      [std::lexicographical_compare] over [std::string::operator<]).
    - [std::size_t] values (lengths, counters, positions) are [nat]; no
      arithmetic of the source can wrap: every [+ 1] and [+ 3] is applied to a
      position found inside a string, and the loop counters stop at a bound.
    - Calls whose behaviour the C++ standard leaves undefined ([pop_front] on
      an empty deque, [%] by zero) and the exception of [deque::at] are the
      outcomes [Undefined] and [OutOfRange] of the [result] monad.
    - Streams are values: an [ostream] is the sequence of insertions made so
      far, an [istream] is the unread buffer with its state flags.
    - The C library generator ([random], [srandom]) and the entropy read by
      [getSeed] live in a [world] value that is threaded through the calls. *)

From Stdlib Require Import Ascii.
From stdpp Require Import gmap strings list fin_maps sorting.

(** ** Outcomes of a call *)

Inductive result (A : Type) : Type :=
  | Ok (a : A)
  | OutOfRange   (* std::out_of_range thrown by deque::at *)
  | Undefined.   (* undefined behaviour *)
Arguments Ok {A} a.
Arguments OutOfRange {A}.
Arguments Undefined {A}.

Global Instance result_ret : MRet result := fun _ a => Ok a.
Global Instance result_bind : MBind result := fun _ _ f r =>
  match r with
  | Ok a => f a
  | OutOfRange => OutOfRange
  | Undefined => Undefined
  end.

Definition is_Ok {A} (r : result A) : Prop := ∃ a, r = Ok a.

(** ** std::string *)

Definition newline : ascii := "010"%char.
Definition space : ascii := " "%char.

(** [s.find(pat)]: position of the first occurrence, [None] for [npos]. *)
Fixpoint find (pat s : string) : option nat :=
  if String.prefix pat s then Some 0
  else match s with
       | EmptyString => None
       | String _ s' => S <$> find pat s'
       end.

(** [s.find(c)] for a single character. *)
Fixpoint find_char (c : ascii) (s : string) : option nat :=
  match s with
  | EmptyString => None
  | String a s' => if decide (a = c) then Some 0 else S <$> find_char c s'
  end.

Fixpoint str_drop (n : nat) (s : string) : string :=
  match n, s with
  | 0, _ => s
  | S _, EmptyString => EmptyString
  | S n', String _ s' => str_drop n' s'
  end.

Fixpoint str_take (n : nat) (s : string) : string :=
  match n, s with
  | 0, _ => EmptyString
  | S _, EmptyString => EmptyString
  | S n', String a s' => String a (str_take n' s')
  end.

(** [s.substr(pos, len)]; [len = None] is the default [npos].  Every call of
    the source has [pos <= s.size()] (see [find_le], [find_char_lt]), so the
    [std::out_of_range] case of [substr] does not arise. *)
Definition substr (pos : nat) (len : option nat) (s : string) : string :=
  match len with
  | Some n => str_take n (str_drop pos s)
  | None => str_drop pos s
  end.

(** ** Streams *)

(** One [operator<<] call on a [std::ostream]. *)
Inductive insertion : Type :=
  | Str (s : string)      (* s << std::string *)
  | Lit (s : string)      (* s << "literal" *)
  | Chr (c : ascii)       (* s << 'c' *)
  | Endl.                 (* s << std::endl *)

Abbreviation ostream := (list insertion).

Definition text_of (i : insertion) : string :=
  match i with
  | Str s => s
  | Lit s => s
  | Chr c => String c EmptyString
  | Endl => String newline EmptyString
  end.

(** The characters a sequence of insertions leaves in the sink. *)
Fixpoint contents (s : ostream) : string :=
  match s with
  | [] => EmptyString
  | i :: s' => text_of i +:+ contents s'
  end.

(** The number of [std::string] insertions: the words written. *)
Fixpoint words_written (s : ostream) : nat :=
  match s with
  | [] => 0
  | Str _ :: s' => S (words_written s')
  | _ :: s' => words_written s'
  end.

Record istream : Type := Istream {
  buf : string;      (* characters not yet extracted *)
  eofbit : bool;
  failbit : bool
}.

Definition good (s : istream) : bool := negb (eofbit s) && negb (failbit s).

(** A readable stream holding [text]. *)
Definition stream_of (text : string) : istream :=
  {| buf := text; eofbit := false; failbit := false |}.

(** [std::getline(s, line)] on a good stream: the characters up to the next
    newline, which is extracted and dropped; at end of input [eofbit] is set,
    and [failbit] too when nothing was extracted. *)
Definition getline (s : istream) : string * istream :=
  match find_char newline (buf s) with
  | Some n =>
      (substr 0 (Some n) (buf s),
       {| buf := substr (n + 1) None (buf s);
          eofbit := eofbit s; failbit := failbit s |})
  | None =>
      (buf s,
       {| buf := EmptyString; eofbit := true;
          failbit := bool_decide (buf s = EmptyString) |})
  end.

Fixpoint skip_space (s : string) : string :=
  match s with
  | EmptyString => EmptyString
  | String a s' => if Ascii.is_space a then skip_space s' else s
  end.

(** The longest prefix without white space, and the rest. *)
Fixpoint span_word (s : string) : string * string :=
  match s with
  | EmptyString => (EmptyString, EmptyString)
  | String a s' =>
      if Ascii.is_space a then (EmptyString, s)
      else let '(w, r) := span_word s' in (String a w, r)
  end.

(** [in >> buf]: skip white space, then extract up to the next white space.
    The returned option is the new [buf] when the extraction succeeded, that
    is when the stream converts to [true] afterwards. *)
Definition extract (s : istream) : option string * istream :=
  if good s then
    match skip_space (buf s) with
    | EmptyString =>
        (None, {| buf := EmptyString; eofbit := true; failbit := true |})
    | b =>
        let '(w, r) := span_word b in
        (Some w, {| buf := r; eofbit := bool_decide (r = EmptyString);
                    failbit := false |})
    end
  else (None, {| buf := buf s; eofbit := eofbit s; failbit := true |}).

(** ** std::deque<std::string> *)

Abbreviation prefix := (list string).

(** [d.pop_front()]: undefined on an empty deque. *)
Definition pop_front (d : prefix) : result prefix :=
  match d with
  | [] => Undefined
  | _ :: d' => Ok d'
  end.

Definition push_back {A} (d : list A) (x : A) : list A := d ++ [x].

(** [d.at(i)]: throws [std::out_of_range] when [i >= d.size()]. *)
Definition at_ (d : prefix) (i : nat) : result string :=
  match d !! i with
  | Some x => Ok x
  | None => OutOfRange
  end.

(** [a % b] on [std::size_t]: undefined for [b = 0]. *)
Definition modulo (a b : nat) : result nat :=
  match b with
  | 0 => Undefined
  | _ => Ok (a `mod` b)
  end.

(** [operator<] of deques: [std::lexicographical_compare]. *)
Fixpoint prefix_lt (a b : prefix) : bool :=
  match a, b with
  | _, [] => false
  | [], _ :: _ => true
  | x :: a', y :: b' =>
      if String.ltb x y then true
      else if String.ltb y x then false
      else prefix_lt a' b'
  end.

(** ** The chain *)

Abbreviation entry := (prefix * list string)%type.

Record chain : Type := Chain {
  mapping : gmap prefix (list string);   (* the std::map base object *)
  current_prefix : prefix;
  prefix_len : nat
}.

(** [chain(len)]: the constructor (chain.hh, lines 57-60). *)
Definition new_chain (len : nat) : chain :=
  {| mapping := ∅; current_prefix := []; prefix_len := len |}.

(** Iteration order of the map: not after, by key. *)
Definition entry_le (a b : entry) : Prop := prefix_lt b.1 a.1 = false.

Global Instance entry_le_dec : RelDecision entry_le.
Proof. intros a b. unfold entry_le. apply _. Defined.

(** The entries from [begin()] to [end()]. *)
Definition entries (c : chain) : list entry :=
  merge_sort entry_le (map_to_list (mapping c)).

(** [m[k]]: a reference to the value at [k], inserting an empty vector when
    the key is absent.  Returns the value and the map after the access. *)
Definition subscript (m : gmap prefix (list string)) (k : prefix)
    : list string * gmap prefix (list string) :=
  match m !! k with
  | Some v => (v, m)
  | None => ([], <[k := []]> m)
  end.

(** [m[k].push_back(s)]. *)
Definition subscript_push_back (m : gmap prefix (list string)) (k : prefix)
    (s : string) : gmap prefix (list string) :=
  let '(v, m') := subscript m k in <[k := push_back v s]> m'.

(** [chain::isValidPrefix] (chain.cc, lines 191-198). *)
Definition isValidPrefix (pref : prefix) (c : chain) : bool :=
  match mapping c !! pref with
  | Some _ => true
  | None => false
  end.

(** [chain::add(const std::string&)] (chain.cc, lines 46-52). *)
Definition add (s : string) (c : chain) : result chain :=
  if decide (length (current_prefix c) = prefix_len c) then
    let m := subscript_push_back (mapping c) (current_prefix c) s in
    cp ← pop_front (current_prefix c);
    Ok {| mapping := m; current_prefix := push_back cp s;
          prefix_len := prefix_len c |}
  else
    Ok {| mapping := mapping c;
          current_prefix := push_back (current_prefix c) s;
          prefix_len := prefix_len c |}.

(** The loop [while (in >> buf) this->add(buf);].  Each successful extraction
    removes at least one character, so [fuel] above the buffer length is
    never exhausted. *)
Fixpoint add_loop (fuel : nat) (i : istream) (c : chain)
    : result (istream * chain) :=
  match fuel with
  | 0 => Ok (i, c)
  | S fuel' =>
      match extract i with
      | (Some b, i') => c' ← add b c; add_loop fuel' i' c'
      | (None, i') => Ok (i', c)
      end
  end.

(** [chain::add(std::istream&, bool)] (chain.cc, lines 54-60). *)
Definition add_stream (i : istream) (resetprefix : bool) (c : chain)
    : result (istream * chain) :=
  let c1 := if resetprefix
            then {| mapping := mapping c; current_prefix := [];
                    prefix_len := prefix_len c |}
            else c in
  add_loop (S (String.length (buf i))) i c1.

(** Feeding a sequence of tokens, one [add] each. *)
Fixpoint add_all (ts : list string) (c : chain) : result chain :=
  match ts with
  | [] => Ok c
  | t :: ts' => c' ← add t c; add_all ts' c'
  end.

(** ** The shared random source *)

(** [pending] lists the values the next calls of [random()] return;
    [reseed n] is the sequence the generator produces after [srandom(n)];
    [entropy] holds the values [getSeed] will obtain from the random device
    or the clock.  [is_seeded] is the static member [chain::is_seeded]. *)
Record world : Type := World {
  is_seeded : bool;
  pending : nat → nat;
  reseed : nat → nat → nat;
  entropy : list nat
}.

(** [getSeed()] (chain.cc, lines 33-44): the seed stays [0] when nothing can
    be read. *)
Definition getSeed (w : world) : nat * world :=
  match entropy w with
  | [] => (0, w)
  | e :: es =>
      (e, {| is_seeded := is_seeded w; pending := pending w;
             reseed := reseed w; entropy := es |})
  end.

(** [srandom(n)]. *)
Definition srandom (n : nat) (w : world) : world :=
  {| is_seeded := is_seeded w; pending := reseed w n;
     reseed := reseed w; entropy := entropy w |}.

(** [random()]. *)
Definition random (w : world) : nat * world :=
  (pending w 0,
   {| is_seeded := is_seeded w; pending := fun i => pending w (S i);
      reseed := reseed w; entropy := entropy w |}).

(** [chain::isSeeded] (chain.cc, lines 211-213). *)
Definition isSeeded (w : world) : bool := is_seeded w.

(** [chain::seed(bool force)] (chain.cc, lines 215-220). *)
Definition seed (force : bool) (w : world) : world :=
  if force || negb (is_seeded w) then
    let '(n, w1) := getSeed w in
    let w2 := srandom n w1 in
    {| is_seeded := true; pending := pending w2;
       reseed := reseed w2; entropy := entropy w2 |}
  else w.

(** The guard [if (!chain::is_seeded) chain::seed();]. *)
Definition seed_if_needed (w : world) : world :=
  if negb (is_seeded w) then seed false w else w.

(** ** Generation *)

(** The loop of [randomPrefix]:
    [for (it = begin(); it != end() && j <= i; it++, j++) pref = it->first;] *)
Fixpoint randomPrefix_loop (it : list entry) (j i : nat) (pref : prefix)
    : prefix :=
  match it with
  | [] => pref
  | e :: it' =>
      if decide (j ≤ i) then randomPrefix_loop it' (S j) i e.1 else pref
  end.

(** [chain::randomPrefix] (chain.cc, lines 176-189). *)
Definition randomPrefix (c : chain) (w : world) : result (prefix * world) :=
  let w1 := seed_if_needed w in
  let '(r, w2) := random w1 in
  i ← modulo r (size (mapping c));
  Ok (randomPrefix_loop (entries c) 0 i [], w2).

(** The first loop of [generate]:
    [for (i = 0; i < prefix_len; i++) s << current_prefix.at(i) << ' ';]
    with [todo] the iterations left, [prefix_len - i]. *)
Fixpoint generate_head (todo i : nat) (cp : prefix) (s : ostream)
    : result ostream :=
  match todo with
  | 0 => Ok s
  | S todo' =>
      x ← at_ cp i;
      generate_head todo' (S i) cp (s ++ [Str x; Chr space])
  end.

(** The second loop of [generate], [for (; i < nwords; i++) { ... }], with
    [todo] the iterations left when no [break] is taken, [nwords - i]. *)
Fixpoint generate_walk (todo : nat) (s : ostream) (c : chain) (w : world)
    : result (ostream * chain * world) :=
  match todo with
  | 0 => Ok (s, c, w)
  | S todo' =>
      let '(suf, m) := subscript (mapping c) (current_prefix c) in
      let '(r, w1) := random w in
      k ← modulo r (length suf);
      match suf !! k with
      | None => Undefined
      | Some wd =>
          let s1 := s ++ [Str wd; Chr space] in
          let c1 := {| mapping := m; current_prefix := current_prefix c;
                       prefix_len := prefix_len c |} in
          pref ← pop_front (current_prefix c1);
          let pref := push_back pref wd in
          if isValidPrefix pref c1 then
            generate_walk todo' s1
              {| mapping := m; current_prefix := pref;
                 prefix_len := prefix_len c |} w1
          else Ok (s1, c1, w1)
      end
  end.

(** [chain::generate(std::ostream&, std::size_t, prefix)] (chain.cc, lines
    62-91). *)
Definition generate (s : ostream) (nwords : nat) (pref : prefix) (c : chain)
    (w : world) : result (ostream * chain * world) :=
  '(cp, w1) ← (if isValidPrefix pref c then Ok (pref, w)
               else randomPrefix c w);
  let c1 := {| mapping := mapping c; current_prefix := cp;
               prefix_len := prefix_len c |} in
  let w2 := seed_if_needed w1 in
  s1 ← generate_head (prefix_len c1) 0 (current_prefix c1) s;
  '(s2, c2, w3) ← generate_walk (nwords - prefix_len c1) s1 c1 w2;
  Ok (s2 ++ [Endl], c2, w3).

(** [chain::generate(std::ostream&, std::size_t)] (chain.cc, lines 93-96). *)
Definition generate_random (s : ostream) (nwords : nat) (c : chain) (w : world)
    : result (ostream * chain * world) :=
  '(start, w1) ← randomPrefix c w;
  generate s nwords start c w1.

(** ** Serialization *)

(** [for (pit = pref.begin(); pit != pref.end(); pit++) s << *pit << ' ';] *)
Fixpoint write_prefix (pref : prefix) (s : ostream) : ostream :=
  match pref with
  | [] => s
  | p :: pref' => write_prefix pref' (s ++ [Str p; Chr space])
  end.

(** The [while (vit != suf.end())] loop of [write]. *)
Fixpoint write_suffixes (suf : list string) (s : ostream) : ostream :=
  match suf with
  | [] => s
  | x :: suf' =>
      let s1 := s ++ [Str x] in
      match suf' with
      | [] => s1 ++ [Endl]
      | _ :: _ => write_suffixes suf' (s1 ++ [Chr space])
      end
  end.

(** The body of the [for] loop of [write], for one entry. *)
Definition write_entry (e : entry) (s : ostream) : ostream :=
  let s1 := write_prefix e.1 s in
  let s2 := s1 ++ [Lit ": "] in
  write_suffixes e.2 s2.

Fixpoint write_entries (es : list entry) (s : ostream) : ostream :=
  match es with
  | [] => s
  | e :: es' => write_entries es' (write_entry e s)
  end.

(** [chain::write] (chain.cc, lines 98-116): the chain is left as it is. *)
Definition write (s : ostream) (c : chain) : ostream :=
  write_entries (entries c) s.

(** ** Deserialization *)

(** The first [do ... while] loop of [parseLine].  Each round but the last
    shortens [pstr], so [fuel] above its length is never exhausted. *)
Fixpoint parse_prefix (fuel : nat) (pstr : string) (temp : prefix) : prefix :=
  match fuel with
  | 0 => temp
  | S fuel' =>
      let spos := find_char space pstr in
      let temp := push_back temp (substr 0 spos pstr) in
      match spos with
      | Some n => parse_prefix fuel' (substr (n + 1) None pstr) temp
      | None => temp
      end
  end.

(** The second [do ... while] loop of [parseLine]. *)
Fixpoint parse_suffixes (fuel : nat) (pstr : string) (temp : prefix)
    (m : gmap prefix (list string)) : gmap prefix (list string) :=
  match fuel with
  | 0 => m
  | S fuel' =>
      let spos := find_char space pstr in
      let m := subscript_push_back m temp (substr 0 spos pstr) in
      match spos with
      | Some n => parse_suffixes fuel' (substr (n + 1) None pstr) temp m
      | None => m
      end
  end.

(** [chain::parseLine] (chain.cc, lines 130-163): the success flag and the
    chain afterwards. *)
Definition parseLine (line : string) (c : chain) : bool * chain :=
  match find " : " line with
  | Some cpos =>
      let pstr := substr 0 (Some cpos) line in
      let temp := parse_prefix (S (String.length pstr)) pstr [] in
      let len := if decide (prefix_len c = 0) then length temp
                 else prefix_len c in
      if decide (length temp = len) then
        let pstr := substr (cpos + 3) None line in
        (true,
         {| mapping :=
              parse_suffixes (S (String.length pstr)) pstr temp (mapping c);
            current_prefix := temp;
            prefix_len := len |})
      else
        (false,
         {| mapping := mapping c; current_prefix := current_prefix c;
            prefix_len := len |})
  | None => (false, c)
  end.

(** The loop of [read]:
    [while (s.good()) { getline(s, line); if (s.good()) parseLine(line); }]
    Each round that leaves the stream good removes a newline, so [fuel]
    above the buffer length is never exhausted. *)
Fixpoint read_loop (fuel : nat) (s : istream) (c : chain) : istream * chain :=
  match fuel with
  | 0 => (s, c)
  | S fuel' =>
      if good s then
        let '(line, s') := getline s in
        let c' := if good s' then (parseLine line c).2 else c in
        read_loop fuel' s' c'
      else (s, c)
  end.

(** [chain::read] (chain.cc, lines 118-128): the chain is reset first. *)
Definition read (s : istream) (c : chain) : istream * chain :=
  read_loop (S (String.length (buf s))) s (new_chain 0).

(** ** Accessors *)

(** [chain::currentPrefix()] (chain.cc, lines 166-168). *)
Definition currentPrefix (c : chain) : prefix := current_prefix c.

(** [chain::currentPrefix(prefix)] (chain.cc, lines 170-174): the value
    returned and the chain. *)
Definition set_currentPrefix (pref : prefix) (c : chain) : prefix * chain :=
  let c' := if isValidPrefix pref c
            then {| mapping := mapping c; current_prefix := pref;
                    prefix_len := prefix_len c |}
            else c in
  (current_prefix c', c').

(** [chain::prefixLength()] (chain.cc, lines 200-202). *)
Definition prefixLength (c : chain) : nat := prefix_len c.

(** [chain::prefixLength(std::size_t)] (chain.cc, lines 204-209): the value
    returned and the chain. *)
Definition set_prefixLength (len : nat) (c : chain) : nat * chain :=
  (len, {| mapping := ∅; current_prefix := []; prefix_len := len |}).

(** ** A running example *)

(** A generator that counts upwards, with an empty entropy pool. *)
Definition counting_world : world :=
  {| is_seeded := false; pending := fun i => i;
     reseed := fun n i => n + i; entropy := [] |}.

(** The chain with the single entry [the cat -> sat]. *)
Definition the_cat : chain :=
  {| mapping := {[ ["the"; "cat"] := ["sat"] ]};
     current_prefix := ["cat"; "sat"]; prefix_len := 2 |}.

(** A second running example: two successors for one prefix, and a walk that
    can go on. *)
Definition a_b_chain : chain :=
  {| mapping := {[ ["a"; "b"] := ["a"; "c"]; ["b"; "a"] := ["b"] ]};
     current_prefix := ["b"; "c"]; prefix_len := 2 |}.


(** A seeded generator whose next draws are 5, 6, 7, ... *)
Definition seeded_world : world :=
  {| is_seeded := true; pending := fun i => 5 + i;
     reseed := fun n i => n + i; entropy := [] |}.

(** ** The words of the specification *)

(** The windows of length [n] met when sliding over [ts] one token at a
    time. *)
Fixpoint windows (n : nat) (ts : list string) : list prefix :=
  match ts with
  | [] => []
  | _ :: ts' =>
      if decide (n ≤ length ts) then take n ts :: windows n ts' else []
  end.

(** The number of distinct windows of length [n] over [ts]. *)
Definition distinct_windows (n : nat) (ts : list string) : nat :=
  length (remove_dups (windows n ts)).

(** The stream after the loop of [add]: at its end, with both bits set. *)
Definition drained : istream :=
  {| buf := EmptyString; eofbit := true; failbit := true |}.

(** ** Splitting at a delimiter *)

(** The pieces of [s] that end with the delimiter [c], and what follows the
    last delimiter. *)
Fixpoint split_at (c : ascii) (s : string) : list string * string :=
  match s with
  | EmptyString => ([], EmptyString)
  | String a s' =>
      let '(l, r) := split_at c s' in
      if decide (a = c) then (EmptyString :: l, r)
      else match l with
           | [] => ([], String a r)
           | h :: t => (String a h :: t, r)
           end
  end.

(** Splitting by the single-space delimiter. *)
Definition fields (s : string) : list string :=
  let '(l, r) := split_at space s in l ++ [r].

(** The lines of a text that end with a line break. *)
Definition complete_lines (s : string) : list string := (split_at newline s).1.

(** Every line of a text: those that end with a line break and, when the
    text does not end with a line break, what follows the last one. *)
Definition input_lines (s : string) : list string :=
  let '(l, r) := split_at newline s in
  if decide (r = EmptyString) then l else l ++ [r].

(** [c] does not occur in [s]. *)
Definition char_free (c : ascii) (s : string) : Prop := find_char c s = None.

Global Instance char_free_dec c s : Decision (char_free c s).
Proof. unfold char_free. apply _. Defined.

(** ** The state invariant *)

Definition keys_have_length (c : chain) : Prop :=
  map_Forall (λ k _, length k = prefix_len c) (mapping c).

Definition cursor_bounded (c : chain) : Prop :=
  length (current_prefix c) ≤ prefix_len c.

Definition successors_nonempty (c : chain) : Prop :=
  map_Forall (λ _ v, v ≠ []) (mapping c).

Definition chain_inv (c : chain) : Prop :=
  keys_have_length c ∧ cursor_bounded c ∧ successors_nonempty c.


(** The chains that the constructor and the operations of the class produce.
    (The members inherited from [std::map] are not among them.) *)
Inductive reachable : chain → Prop :=
  | reach_new len : reachable (new_chain len)
  | reach_add t c c' : reachable c → add t c = Ok c' → reachable c'
  | reach_add_stream i r c i' c' :
      reachable c → add_stream i r c = Ok (i', c') → reachable c'
  | reach_generate s n p c w s' c' w' :
      reachable c → generate s n p c w = Ok (s', c', w') → reachable c'
  | reach_generate_random s n c w s' c' w' :
      reachable c → generate_random s n c w = Ok (s', c', w') → reachable c'
  | reach_read i c : reachable c → reachable (read i c).2
  | reach_set_prefixLength len c :
      reachable c → reachable (set_prefixLength len c).2
  | reach_set_currentPrefix p c :
      reachable c → reachable (set_currentPrefix p c).2.

(** The state invariant, and no entries under the prefix length [0], which
    [read] uses for: no line parsed yet. *)
Definition well_formed (c : chain) : Prop :=
  chain_inv c ∧ (prefix_len c = 0 → mapping c = ∅).

(** ** The text format *)

(** The line of an entry without its line break: the prefix tokens separated
    by single spaces, the separator, the successors separated by single
    spaces. *)
Definition entry_body (e : entry) : string :=
  String.concat " " e.1 +:+ " : " +:+ String.concat " " e.2.

Definition entry_line (e : entry) : string :=
  entry_body e +:+ String newline EmptyString.

Fixpoint entry_lines (es : list entry) : string :=
  match es with
  | [] => EmptyString
  | e :: es' => entry_line e +:+ entry_lines es'
  end.

(** Tokens the format can carry: no space and no line break inside. *)
Definition clean_token (t : string) : Prop :=
  char_free space t ∧ char_free newline t.

(** Entries the format can carry: clean tokens, and no lone colon among the
    prefix tokens after the first, where it would read as the separator. *)
Definition serializable_entry (k : prefix) (v : list string) : Prop :=
  Forall clean_token k ∧ Forall clean_token v ∧
  Forall (λ t, t ≠ ":") (drop 1 k).

Definition serializable (c : chain) : Prop :=
  map_Forall serializable_entry (mapping c).

(** No token of the entry holds a line break. *)
Definition one_line_entry (k : prefix) (v : list string) : Prop :=
  Forall (char_free newline) k ∧ Forall (char_free newline) v.

Definition one_line_entries (c : chain) : Prop :=
  map_Forall one_line_entry (mapping c).

(** The tokens after the first of a line, each with the space before it. *)
Fixpoint spaced (ps : list string) : string :=
  match ps with
  | [] => EmptyString
  | p :: ps' => String space (p +:+ spaced ps')
  end.

(** ** Deciding the predicates on concrete chains *)

Global Instance chain_inv_dec c : Decision (chain_inv c).
Proof.
  unfold chain_inv, keys_have_length, cursor_bounded, successors_nonempty.
  apply _.
Defined.

Global Instance clean_token_dec t : Decision (clean_token t).
Proof. unfold clean_token. apply _. Defined.

Global Instance serializable_entry_dec k v : Decision (serializable_entry k v).
Proof. unfold serializable_entry. apply _. Defined.

Global Instance serializable_dec c : Decision (serializable c).
Proof. unfold serializable. apply _. Defined.

Global Instance one_line_entries_dec c : Decision (one_line_entries c).
Proof. unfold one_line_entries, one_line_entry. apply _. Defined.

(** ** Further words on training and generation *)

(** The tokens that follow the occurrences of the window [k] of [n] tokens
    in [ts], in the order of the occurrences. *)
Fixpoint followers (n : nat) (k : prefix) (ts : list string) : list string :=
  match ts with
  | [] => []
  | _ :: ts' =>
      (if decide (take n ts = k) then option_list (ts !! n) else [])
        ++ followers n k ts'
  end.

(** The successor list after the tokens [f] were pushed to the one of [o]. *)
Definition pushed (o : option (list string)) (f : list string)
    : option (list string) :=
  if decide (f = []) then o else Some (default [] o ++ f).

(** The words inserted in a sink, in order. *)
Fixpoint words_of (s : ostream) : list string :=
  match s with
  | [] => []
  | Str x :: s' => x :: words_of s'
  | _ :: s' => words_of s'
  end.

(** The insertions that write each word of [ws] followed by a space. *)
Fixpoint spaced_words (ws : list string) : ostream :=
  match ws with
  | [] => []
  | x :: ws' => Str x :: Chr space :: spaced_words ws'
  end.

(** Every word of [ws] that has [n] words before it is a successor, in the
    map [m], of the [n] words before it. *)
Definition chained (m : gmap prefix (list string)) (n : nat)
    (ws : list string) : Prop :=
  ∀ i x, ws !! (i + n) = Some x →
    ∃ v, m !! take n (drop i ws) = Some v ∧ x ∈ v.

(** The successors given for the prefix [k] by the entries [es], in order. *)
Fixpoint collect (k : prefix) (es : list entry) : list string :=
  match es with
  | [] => []
  | e :: es' => (if decide (e.1 = k) then e.2 else []) ++ collect k es'
  end.

(** What [read] leaves: nothing parsed, or a positive prefix length with a
    valid current prefix. *)
Definition read_state (c : chain) : Prop :=
  (prefix_len c = 0 ∧ mapping c = ∅ ∧ current_prefix c = []) ∨
  (0 < prefix_len c ∧ isValidPrefix (current_prefix c) c = true).

(** * Strings *)

Section strings.
Implicit Types (s p : string) (c a : ascii).

Lemma str_app_cons a s1 s2 : String a s1 +:+ s2 = String a (s1 +:+ s2).
Proof. reflexivity. Qed.

Lemma str_app_nil_l s : EmptyString +:+ s = s.
Proof. reflexivity. Qed.

Lemma str_app_nil_r s : s +:+ EmptyString = s.
Proof. induction s as [|a s IH]; [done|]. by rewrite str_app_cons, IH. Qed.

Lemma str_app_assoc s1 s2 s3 : s1 +:+ (s2 +:+ s3) = (s1 +:+ s2) +:+ s3.
Proof.
  induction s1 as [|a s1 IH]; [done|]. by rewrite !str_app_cons, IH.
Qed.

Lemma str_length_app s1 s2 :
  String.length (s1 +:+ s2) = String.length s1 + String.length s2.
Proof.
  induction s1 as [|a s1 IH]; [done|]. rewrite str_app_cons. simpl. by rewrite IH.
Qed.

Lemma str_drop_0 s : str_drop 0 s = s.
Proof. by destruct s. Qed.

Lemma str_take_app s1 s2 : str_take (String.length s1) (s1 +:+ s2) = s1.
Proof.
  induction s1 as [|a s1 IH]; simpl; [by destruct s2|]. by rewrite IH.
Qed.

Lemma str_drop_app s1 s2 : str_drop (String.length s1) (s1 +:+ s2) = s2.
Proof. induction s1 as [|a s1 IH]; simpl; [apply str_drop_0|done]. Qed.

Lemma length_str_drop n s : String.length (str_drop n s) = String.length s - n.
Proof.
  revert s. induction n as [|n IH]; intros [|a s]; simpl; try done.
Qed.

(** Positions returned by the searches lie inside the string. *)
Lemma find_char_lt c s n : find_char c s = Some n → n < String.length s.
Proof.
  revert n. induction s as [|a s IH]; intros n; simpl; [done|].
  case_decide; [intros [= <-]; lia|].
  destruct (find_char c s) as [k|]; simpl; [|done].
  intros [= <-]. specialize (IH k eq_refl). lia.
Qed.

Lemma prefix_length p s : String.prefix p s = true →
  String.length p ≤ String.length s.
Proof.
  revert p. induction s as [|a s IH]; intros [|b p]; simpl; try done; try lia.
  destruct (ascii_dec b a); [|done]. intros H%IH. lia.
Qed.

Lemma find_unfold pat s :
  find pat s =
    if String.prefix pat s then Some 0
    else match s with
         | EmptyString => None
         | String _ s' => S <$> find pat s'
         end.
Proof. by destruct s. Qed.

Lemma find_le pat s n :
  find pat s = Some n → n + String.length pat ≤ String.length s.
Proof.
  revert n. induction s as [|a s IH]; intros n; rewrite find_unfold.
  - destruct (String.prefix pat EmptyString) eqn:Hp; [|done].
    intros [= <-]. by apply prefix_length in Hp.
  - destruct (String.prefix pat (String a s)) eqn:Hp.
    + intros [= <-]. by apply prefix_length in Hp.
    + destruct (find pat s) as [k|]; simpl; [|done].
      intros [= <-]. specialize (IH k eq_refl). lia.
Qed.

Lemma char_free_cons c a s :
  char_free c (String a s) ↔ a ≠ c ∧ char_free c s.
Proof.
  unfold char_free. simpl. case_decide.
  - split; [done|]. by intros [].
  - destruct (find_char c s); simpl; split; try done; by intros [].
Qed.

Lemma char_free_app c s1 s2 :
  char_free c (s1 +:+ s2) ↔ char_free c s1 ∧ char_free c s2.
Proof.
  induction s1 as [|a s1 IH].
  - rewrite str_app_nil_l. split; [done|]. by intros [].
  - rewrite str_app_cons, !char_free_cons, IH. tauto.
Qed.

(** ** [split_at] against the searches of the source *)

Lemma split_at_free c s : char_free c s → split_at c s = ([], s).
Proof.
  induction s as [|a s IH]; [done|].
  intros [Hne Hs]%char_free_cons. simpl. rewrite (IH Hs).
  by rewrite decide_False.
Qed.

Lemma split_at_app c p s :
  char_free c p →
  split_at c (p +:+ String c s) =
    let '(l, r) := split_at c s in (p :: l, r).
Proof.
  induction p as [|a p IH]; intros Hp.
  - rewrite str_app_nil_l. simpl. destruct (split_at c s) as [l r].
    by rewrite decide_True.
  - apply char_free_cons in Hp as [Hne Hp].
    rewrite str_app_cons. simpl. rewrite (IH Hp).
    destruct (split_at c s) as [l r]. by rewrite decide_False.
Qed.

Lemma find_char_None_inv c s : find_char c s = None → char_free c s.
Proof. done. Qed.

(** When [c] is found at [n], the string is the piece before it, [c], and
    the tail [substr (n + 1)]. *)
Lemma find_char_Some c s n :
  find_char c s = Some n →
  char_free c (substr 0 (Some n) s) ∧
  s = substr 0 (Some n) s +:+ String c (substr (n + 1) None s).
Proof.
  unfold substr. rewrite str_drop_0.
  revert n. induction s as [|a s IH]; intros n; simpl; [done|].
  case_decide as Ha.
  - intros [= <-]. simpl. by subst.
  - destruct (find_char c s) as [k|]; simpl; [|done].
    intros [= <-]. destruct (IH k eq_refl) as [Hfree Heq]. simpl. split.
    + by apply char_free_cons.
    + rewrite str_app_cons. by rewrite <- Heq.
Qed.

Lemma split_at_find c s n :
  find_char c s = Some n →
  split_at c s =
    let '(l, r) := split_at c (substr (n + 1) None s) in
    (substr 0 (Some n) s :: l, r).
Proof.
  intros [Hfree Heq]%find_char_Some.
  rewrite Heq at 1. by apply split_at_app.
Qed.

Lemma length_substr_tail c s n :
  find_char c s = Some n →
  String.length (substr (n + 1) None s) < String.length s.
Proof.
  intros Hn%find_char_lt. unfold substr. rewrite length_str_drop. lia.
Qed.

Lemma fields_nonempty s : fields s ≠ [].
Proof. unfold fields. destruct (split_at space s) as [[|??] ?]; done. Qed.

Lemma fields_free s : char_free space s → fields s = [s].
Proof. intros H. unfold fields. by rewrite split_at_free. Qed.

Lemma fields_app p s :
  char_free space p → fields (p +:+ String space s) = p :: fields s.
Proof.
  intros H. unfold fields. rewrite split_at_app by done.
  by destruct (split_at space s).
Qed.

Lemma fields_find s n :
  find_char space s = Some n →
  fields s = substr 0 (Some n) s :: fields (substr (n + 1) None s).
Proof.
  intros [Hfree Heq]%find_char_Some. rewrite Heq at 1. by apply fields_app.
Qed.

Lemma complete_lines_free s : char_free newline s → complete_lines s = [].
Proof. intros H. unfold complete_lines. by rewrite split_at_free. Qed.

Lemma complete_lines_app p s :
  char_free newline p →
  complete_lines (p +:+ String newline s) = p :: complete_lines s.
Proof.
  intros H. unfold complete_lines. rewrite split_at_app by done.
  by destruct (split_at newline s).
Qed.

(** Characters after the last delimiter only extend the last piece. *)
Lemma split_at_app_free c s p :
  char_free c p →
  split_at c (s +:+ p) = let '(l, r) := split_at c s in (l, r +:+ p).
Proof.
  intros Hp. induction s as [|a s IH].
  - rewrite str_app_nil_l. by apply split_at_free.
  - rewrite str_app_cons. simpl. rewrite IH.
    destruct (split_at c s) as [[|h t] r]; by case_decide.
Qed.

Lemma complete_lines_app_free s p :
  char_free newline p → complete_lines (s +:+ p) = complete_lines s.
Proof.
  intros Hp. unfold complete_lines. rewrite split_at_app_free by done.
  by destruct (split_at newline s).
Qed.

Lemma complete_lines_find s n :
  find_char newline s = Some n →
  complete_lines s =
    substr 0 (Some n) s :: complete_lines (substr (n + 1) None s).
Proof.
  intros [Hfree Heq]%find_char_Some. rewrite Heq at 1.
  by apply complete_lines_app.
Qed.
End strings.

(** * Training *)

Section training.
Implicit Types (c : chain) (t : string) (ts : list string).

Lemma subscript_push_back_eq (m : gmap prefix (list string)) k t :
  subscript_push_back m k t = <[k := default [] (m !! k) ++ [t]]> m.
Proof.
  unfold subscript_push_back, subscript, push_back.
  destruct (m !! k) as [v|]; simpl; [done|].
  by rewrite insert_insert_eq.
Qed.

(** What [add] does, as long as [pop_front] has a token to drop. *)
Lemma add_eq t c :
  0 < prefix_len c →
  add t c =
    Ok (if decide (length (current_prefix c) = prefix_len c)
        then {| mapping :=
                  <[current_prefix c :=
                      default [] (mapping c !! current_prefix c) ++ [t]]>
                    (mapping c);
                current_prefix := drop 1 (current_prefix c) ++ [t];
                prefix_len := prefix_len c |}
        else {| mapping := mapping c;
                current_prefix := current_prefix c ++ [t];
                prefix_len := prefix_len c |}).
Proof.
  intros Hpos. unfold add. case_decide as Hfull; [|done].
  rewrite subscript_push_back_eq.
  destruct (current_prefix c) as [|x cp]; [simpl in Hfull; lia|].
  simpl. by rewrite drop_0.
Qed.

Lemma add_all_app ts1 ts2 c :
  add_all (ts1 ++ ts2) c = add_all ts1 c ≫= add_all ts2.
Proof.
  revert c. induction ts1 as [|t ts1 IH]; intros c; simpl; [done|].
  destruct (add t c) as [c'| |]; simpl; [apply IH|done..].
Qed.

Lemma windows_short n ts : length ts < n → windows n ts = [].
Proof.
  destruct ts as [|t ts]; simpl; [done|].
  intros Hlt. rewrite decide_False; [done|lia].
Qed.

Lemma windows_snoc n ts t :
  0 < n →
  windows n (ts ++ [t]) =
    windows n ts ++
    (if decide (n ≤ S (length ts))
     then [drop (S (length ts) - n) (ts ++ [t])] else []).
Proof.
  intros Hn. induction ts as [|u ts IH]; simpl.
  - case_decide as Hle; [|done].
    assert (n = 1) as -> by lia. done.
  - rewrite length_app. simpl. rewrite (Nat.add_1_r (length ts)).
    rewrite IH. clear IH.
    repeat case_decide; try lia.
    + destruct n as [|n]; [lia|]. simpl.
      rewrite take_app_le by lia.
      replace (S (length ts) - n) with (S (length ts - n)) by lia.
      done.
    + rewrite windows_short by lia. simpl.
      assert (n = S (S (length ts))) as -> by lia.
      rewrite Nat.sub_diag. simpl.
      rewrite take_ge; [done|]. rewrite length_app. simpl. lia.
    + by rewrite app_nil_r.
Qed.

(** The chain after the tokens [ts] have been added to a fresh one. *)
Lemma add_all_fresh n ts :
  0 < n →
  ∃ c, add_all ts (new_chain n) = Ok c ∧
       prefix_len c = n ∧
       current_prefix c = drop (length ts - n) ts ∧
       dom (mapping c) = list_to_set (windows n (removelast ts)).
Proof.
  intros Hn. induction ts as [|t ts IH] using rev_ind.
  - exists (new_chain n). simpl. split_and!; try done.
  - destruct IH as (c & Hrun & Hlen & Hcp & Hdom).
    rewrite add_all_app, Hrun. simpl.
    rewrite add_eq by lia.
    eexists. split; [done|].
    rewrite removelast_last, length_app. simpl.
    assert (length (current_prefix c) = Nat.min n (length ts)) as Hl.
    { rewrite Hcp, length_drop. lia. }
    case_decide as Hfull; simpl.
    + split_and!; [done| |].
      * rewrite Hcp, drop_drop. rewrite <- drop_app_le by lia.
        f_equal. lia.
      * rewrite dom_insert_L, Hdom.
        destruct ts as [|u ts _] using rev_ind; [simpl in *; lia|].
        rewrite removelast_last. rewrite windows_snoc by done.
        rewrite length_app in *. simpl in *.
        rewrite decide_True by lia.
        rewrite list_to_set_app_L. simpl.
        rewrite Hcp.
        replace (length ts + 1 - n) with (S (length ts) - n) by lia.
        by rewrite (right_id_L ∅ (∪)), (comm_L (∪)).
    + split_and!; [done| |].
      * rewrite Hcp. replace (length ts - n) with 0 by lia.
        replace (length ts + 1 - n) with 0 by lia. done.
      * rewrite Hdom.
        rewrite (windows_short n ts) by lia.
        rewrite windows_short; [done|].
        destruct ts as [|u ts _] using rev_ind; [simpl; lia|].
        rewrite removelast_last. rewrite length_app in *. simpl in *. lia.
Qed.
End training.

(** Without a positive prefix length the first [add] already drops a token
    from an empty deque. *)
Lemma add_zero_length_undefined (t : string) : add t (new_chain 0) = Undefined.
Proof. reflexivity. Qed.

(** C1, as stated, fails: the tokens the, cat, sat hold two distinct windows
    of length 2, but the chain trained on them has a single entry, since the
    last window has no successor. *)
Lemma add_entry_count_counterexample :
  ¬ (∀ (n : nat) (ts : list string) (c : chain),
       n ≤ length ts → add_all ts (new_chain n) = Ok c →
       size (mapping c) = distinct_windows n ts).
Proof.
  intros H.
  specialize (H 2 ["the"; "cat"; "sat"] _ ltac:(simpl; lia) eq_refl).
  vm_compute in H. discriminate H.
Qed.

(** C1 (amended): with a positive prefix length, [add t] on a chain whose
    window holds exactly [prefix_len] tokens appends [t] to the successors
    keyed by the window (creating the entry if absent) and drops the oldest
    token of the window; in all cases it then appends [t] to the window.
    After any token stream has been fed to a fresh chain, the number of
    entries is the number of distinct windows of [prefix_len] tokens that are
    followed by a token, that is, of the windows over the stream without its
    last token; and no entry exists while at most [prefix_len] tokens have
    been seen. *)
Theorem add_sliding_window (t : string) (c : chain) (n : nat)
    (ts : list string) :
  0 < prefix_len c → 0 < n →
  add t c =
    Ok (if decide (length (current_prefix c) = prefix_len c)
        then {| mapping :=
                  <[current_prefix c :=
                      default [] (mapping c !! current_prefix c) ++ [t]]>
                    (mapping c);
                current_prefix := drop 1 (current_prefix c) ++ [t];
                prefix_len := prefix_len c |}
        else {| mapping := mapping c;
                current_prefix := current_prefix c ++ [t];
                prefix_len := prefix_len c |})
  ∧ ∃ c', add_all ts (new_chain n) = Ok c'
          ∧ size (mapping c') = distinct_windows n (removelast ts)
          ∧ (length ts ≤ n → mapping c' = ∅).
Proof.
  intros Hc Hn. split; [by apply add_eq|].
  destruct (add_all_fresh n ts Hn) as (c' & Hrun & _ & _ & Hdom).
  exists c'. split; [done|]. split.
  - rewrite <- size_dom, Hdom. unfold distinct_windows.
    rewrite <- (size_list_to_set (C := gset prefix))
      by apply NoDup_remove_dups.
    f_equal. apply set_eq. intros k.
    by rewrite !elem_of_list_to_set, elem_of_remove_dups.
  - intros Hshort. apply dom_empty_iff_L. rewrite Hdom.
    rewrite windows_short; [done|].
    destruct ts as [|u ts _] using rev_ind; [simpl; lia|].
    rewrite removelast_last. rewrite length_app in Hshort. simpl in *. lia.
Qed.

Lemma add_sliding_window_witness :
  add "on" the_cat =
    Ok {| mapping := <[ ["cat"; "sat"] := ["on"] ]> (mapping the_cat);
          current_prefix := ["sat"; "on"]; prefix_len := 2 |}
  ∧ ∃ c', add_all ["the"; "cat"; "sat"] (new_chain 2) = Ok c'
          ∧ size (mapping c') = 1
          ∧ (3 ≤ 2 → mapping c' = ∅).
Proof.
  exact (add_sliding_window "on" the_cat 2 ["the"; "cat"; "sat"]
           ltac:(simpl; lia) ltac:(lia)).
Defined.

(** * Training from a stream *)

Section tokens.
Implicit Types (s acc w r : string) (c : chain) (i : istream).

Lemma rev_app_app acc s1 s2 :
  String.rev_app acc s1 +:+ s2 = String.rev_app acc (s1 +:+ s2).
Proof.
  revert s1. induction acc as [|a acc IH]; intros s1; [done|].
  simpl. by rewrite IH.
Qed.

(** What [in >> buf] extracts, against the white-space splitting of the
    library. *)
Lemma words_go_Some acc s :
  String.words_go (Some acc) s =
    (String.rev acc +:+ (span_word s).1) :: String.words_go None (span_word s).2.
Proof.
  revert acc. induction s as [|a s IH]; intros acc; simpl.
  - by rewrite str_app_nil_r.
  - destruct (Ascii.is_space a) eqn:Ha; simpl.
    + by rewrite str_app_nil_r, Ha.
    + rewrite IH. destruct (span_word s) as [w r]. simpl. f_equal.
      unfold String.rev. simpl. by rewrite !rev_app_app.
Qed.

Lemma words_skip_space s :
  String.words s = String.words (skip_space s).
Proof.
  unfold String.words. induction s as [|a s IH]; simpl; [done|].
  destruct (Ascii.is_space a) eqn:Ha; simpl; [done|]. by rewrite Ha.
Qed.

Lemma words_span a s :
  Ascii.is_space a = false →
  String.words (String a s) =
    (span_word (String a s)).1 :: String.words (span_word (String a s)).2.
Proof.
  intros Ha. unfold String.words. simpl. rewrite Ha. simpl.
  rewrite words_go_Some. by destruct (span_word s).
Qed.

Lemma length_skip_space s : String.length (skip_space s) ≤ String.length s.
Proof.
  induction s as [|a s IH]; simpl; [done|].
  destruct (Ascii.is_space a); simpl; lia.
Qed.

Lemma length_span_word s :
  String.length (span_word s).2 ≤ String.length s.
Proof.
  induction s as [|a s IH]; simpl; [done|].
  destruct (Ascii.is_space a); simpl; [lia|].
  destruct (span_word s). simpl in *. lia.
Qed.

(** The loop ends by a failed extraction, after one [add] per word. *)
Lemma add_loop_words fuel i c :
  String.length (buf i) < fuel → good i = true →
  add_loop fuel i c =
    c' ← add_all (String.words (buf i)) c; Ok (drained, c').
Proof.
  revert i c. induction fuel as [|fuel IH]; intros i c Hfuel Hgood; [lia|].
  cbn [add_loop]. unfold extract. rewrite Hgood.
  rewrite (words_skip_space (buf i)).
  pose proof (length_skip_space (buf i)) as Hskip.
  destruct (skip_space (buf i)) as [|a b] eqn:Hb; [done|].
  assert (Ascii.is_space a = false) as Ha.
  { clear -Hb. induction (buf i) as [|a' s IH]; simpl in Hb; [done|].
    destruct (Ascii.is_space a') eqn:Ha'; [by apply IH|]. by injection Hb as ->. }
  rewrite (words_span a b Ha).
  pose proof (length_span_word b) as Hspan. simpl in Hspan, Hskip.
  simpl. rewrite Ha. destruct (span_word b) as [w r]. simpl in *.
  destruct (add (String a w) c) as [c1| |]; simpl; [|done..].
  destruct r as [|a' r].
  - destruct fuel; [lia|]. done.
  - rewrite IH; [done|simpl in *; lia|done].
Qed.

(** [add(in, resetprefix)] is one [add] per white-space separated word. *)
Lemma add_stream_words text (resetprefix : bool) c :
  add_stream (stream_of text) resetprefix c =
    c' ← add_all (String.words text)
           (if resetprefix
            then {| mapping := mapping c; current_prefix := [];
                    prefix_len := prefix_len c |}
            else c);
    Ok (drained, c').
Proof. unfold add_stream. by apply add_loop_words; [simpl; lia|]. Qed.
End tokens.

(** * The state invariant and generation *)

Section invariant.
Implicit Types (c : chain) (t : string) (w : world) (s : ostream).

Lemma new_chain_inv len : chain_inv (new_chain len).
Proof.
  split_and!; [apply map_Forall_empty|unfold cursor_bounded; simpl; lia
              |apply map_Forall_empty].
Qed.

Lemma isValidPrefix_true pref c :
  isValidPrefix pref c = true ↔ is_Some (mapping c !! pref).
Proof.
  unfold isValidPrefix. destruct (mapping c !! pref); split; intros H;
    try done; try (by eexists); by destruct H.
Qed.

Lemma valid_prefix_length pref c :
  chain_inv c → isValidPrefix pref c = true → length pref = prefix_len c.
Proof.
  intros (Hk & _ & _) [v Hv]%isValidPrefix_true. exact (Hk _ _ Hv).
Qed.

Lemma add_is_Ok t c : 0 < prefix_len c → is_Ok (add t c).
Proof. intros Hpos. rewrite add_eq by done. by eexists. Qed.

Lemma add_inv t c c' : chain_inv c → add t c = Ok c' → chain_inv c'.
Proof.
  intros (Hk & Hc & Hs). unfold add, cursor_bounded in *.
  case_decide as Hfull.
  - rewrite subscript_push_back_eq.
    destruct (current_prefix c) as [|x cp] eqn:Hcp; simpl; [done|].
    intros [= <-]. split_and!.
    + apply map_Forall_insert_2; [done|exact Hk].
    + unfold cursor_bounded, push_back. simpl in *.
      rewrite length_app. simpl. lia.
    + apply map_Forall_insert_2; [|exact Hs].
      by destruct (default [] (mapping c !! (x :: cp))).
  - intros [= <-]. split_and!; [exact Hk| |exact Hs].
    unfold cursor_bounded, push_back. simpl.
    rewrite length_app. simpl. lia.
Qed.

Lemma add_all_inv ts c c' : chain_inv c → add_all ts c = Ok c' → chain_inv c'.
Proof.
  revert c. induction ts as [|t ts IH]; intros c Hinv; simpl.
  - by intros [= <-].
  - destruct (add t c) as [c1| |] eqn:Hadd; simpl; [|done..].
    apply IH. by eapply add_inv.
Qed.

Lemma add_loop_inv fuel i c i' c' :
  chain_inv c → add_loop fuel i c = Ok (i', c') → chain_inv c'.
Proof.
  revert i c. induction fuel as [|fuel IH]; intros i c Hinv; simpl.
  - by intros [= _ <-].
  - destruct (extract i) as [[b|] i1].
    + destruct (add b c) as [c1| |] eqn:Hadd; simpl; [|done..].
      apply IH. by eapply add_inv.
    + by intros [= _ <-].
Qed.

Lemma add_prefix_len t c c' : add t c = Ok c' → prefix_len c' = prefix_len c.
Proof.
  unfold add. case_decide.
  - destruct (pop_front (current_prefix c)); simpl; [|done..].
    by intros [= <-].
  - by intros [= <-].
Qed.

Lemma add_loop_is_Ok fuel i c : 0 < prefix_len c → is_Ok (add_loop fuel i c).
Proof.
  revert i c. induction fuel as [|fuel IH]; intros i c Hpos; simpl.
  - by eexists.
  - destruct (extract i) as [[b|] i1]; [|by eexists].
    destruct (add_is_Ok b c Hpos) as [c1 Hadd]. rewrite Hadd. simpl.
    apply IH. by rewrite (add_prefix_len _ _ _ Hadd).
Qed.

Lemma add_stream_is_Ok i r c : 0 < prefix_len c → is_Ok (add_stream i r c).
Proof. intros Hpos. unfold add_stream. apply add_loop_is_Ok. by destruct r. Qed.

Lemma add_stream_inv i r c i' c' :
  chain_inv c → add_stream i r c = Ok (i', c') → chain_inv c'.
Proof.
  intros Hinv. unfold add_stream. apply add_loop_inv.
  destruct r; [|done].
  destruct Hinv as (Hk & Hc & Hs). split_and!; [exact Hk| |exact Hs].
  unfold cursor_bounded. simpl. lia.
Qed.

(** ** The iteration order *)

Lemma entries_Permutation c : entries c ≡ₚ map_to_list (mapping c).
Proof. apply merge_sort_Permutation. Qed.

Lemma elem_of_entries c k v : (k, v) ∈ entries c ↔ mapping c !! k = Some v.
Proof. by rewrite entries_Permutation, elem_of_map_to_list. Qed.

Lemma length_entries c : length (entries c) = size (mapping c).
Proof. by rewrite entries_Permutation, length_map_to_list. Qed.

Lemma NoDup_fst_entries c : NoDup (entries c).*1.
Proof. rewrite entries_Permutation. apply NoDup_fst_map_to_list. Qed.

Lemma randomPrefix_loop_cases it j i pref :
  randomPrefix_loop it j i pref = pref ∨
  ∃ e, e ∈ it ∧ randomPrefix_loop it j i pref = e.1.
Proof.
  revert j pref. induction it as [|e it IH]; intros j pref; simpl; [by left|].
  case_decide; [|by left].
  destruct (IH (S j) e.1) as [->|(e' & Hin & ->)]; right.
  - exists e. split; [left|done].
  - exists e'. split; [by right|done].
Qed.

Lemma randomPrefix_valid c w pref w' :
  randomPrefix c w = Ok (pref, w') → isValidPrefix pref c = true.
Proof.
  unfold randomPrefix. destruct (random (seed_if_needed w)) as [r w2].
  unfold modulo. destruct (size (mapping c)) as [|n] eqn:Hsize; [done|].
  simpl. intros [= <- _].
  destruct (entries c) as [|[k v] it] eqn:Hent.
  { apply (f_equal length) in Hent. rewrite length_entries in Hent.
    simpl in Hent. lia. }
  simpl. generalize (n - (Nat.divmod r n 0 n).2). intros i.
  apply isValidPrefix_true.
  destruct (randomPrefix_loop_cases it 1 i k) as [->|([k' v'] & Hin & ->)].
  - exists v. apply elem_of_entries. rewrite Hent. left.
  - exists v'. apply elem_of_entries. rewrite Hent. by right.
Qed.

Lemma randomPrefix_empty c w : mapping c = ∅ → randomPrefix c w = Undefined.
Proof.
  intros Hm. unfold randomPrefix.
  destruct (random (seed_if_needed w)) as [r w2].
  by rewrite Hm, map_size_empty.
Qed.

Lemma randomPrefix_is_Ok c w : mapping c ≠ ∅ → is_Ok (randomPrefix c w).
Proof.
  intros Hm. unfold randomPrefix.
  destruct (random (seed_if_needed w)) as [r w2].
  destruct (size (mapping c)) as [|n] eqn:Hsize.
  { by apply map_size_empty_inv in Hsize. }
  simpl. by eexists.
Qed.

(** ** Generation *)

Lemma words_written_app s1 s2 :
  words_written (s1 ++ s2) = words_written s1 + words_written s2.
Proof.
  induction s1 as [|[] s1 IH]; simpl; rewrite ?IH; done.
Qed.

Lemma generate_head_words todo i cp s s1 :
  generate_head todo i cp s = Ok s1 →
  words_written s1 = words_written s + todo.
Proof.
  revert i s. induction todo as [|todo IH]; intros i s; simpl.
  - intros [= <-]. lia.
  - destruct (at_ cp i) as [x| |]; simpl; [|done..].
    intros Hrun%IH. rewrite Hrun, words_written_app. simpl. lia.
Qed.

Lemma generate_head_is_Ok todo i cp s :
  i + todo ≤ length cp → is_Ok (generate_head todo i cp s).
Proof.
  revert i s. induction todo as [|todo IH]; intros i s Hlen; simpl.
  - by eexists.
  - unfold at_. destruct (lookup_lt_is_Some_2 cp i) as [x ->]; [lia|].
    simpl. apply IH. lia.
Qed.

Lemma subscript_valid c :
  isValidPrefix (current_prefix c) c = true →
  ∃ v, mapping c !! current_prefix c = Some v ∧
       subscript (mapping c) (current_prefix c) = (v, mapping c).
Proof.
  intros [v Hv]%isValidPrefix_true. exists v. split; [done|].
  unfold subscript. by rewrite Hv.
Qed.

(** A walk leaves the map alone, ends on a key, and writes no more words
    than it has rounds. *)
Lemma generate_walk_spec todo s c w s' c' w' :
  isValidPrefix (current_prefix c) c = true →
  generate_walk todo s c w = Ok (s', c', w') →
  mapping c' = mapping c ∧ prefix_len c' = prefix_len c ∧
  isValidPrefix (current_prefix c') c = true ∧
  words_written s' ≤ words_written s + todo.
Proof.
  revert s c w. induction todo as [|todo IH]; intros s c w Hvalid; simpl.
  - intros [= <- <- <-]. split_and!; try done. lia.
  - destruct (subscript_valid c Hvalid) as (v & Hv & ->).
    destruct (modulo _ (length v)) as [k| |]; simpl; [|done..].
    destruct (v !! k) as [wd|]; [|done].
    destruct (pop_front (current_prefix c)) as [pref| |]; simpl; [|done..].
    destruct (isValidPrefix (push_back pref wd) _) eqn:Hnext.
    + intros Hrun. apply IH in Hrun; [|exact Hnext].
      simpl in Hrun. destruct Hrun as (? & ? & ? & Hw).
      split_and!; try done.
      rewrite words_written_app in Hw. simpl in Hw. lia.
    + intros [= <- <- <-]. simpl. split_and!; try done.
      rewrite words_written_app. simpl. lia.
Qed.

Lemma generate_walk_is_Ok todo s c w :
  chain_inv c → 0 < prefix_len c →
  isValidPrefix (current_prefix c) c = true →
  is_Ok (generate_walk todo s c w).
Proof.
  revert s c w. induction todo as [|todo IH]; intros s c w Hinv Hpos Hvalid;
    simpl; [by eexists|].
  destruct (subscript_valid c Hvalid) as (v & Hv & ->).
  generalize (pending w 0). intros r.
  pose proof (valid_prefix_length _ _ Hinv Hvalid) as Hlen.
  destruct Hinv as (Hk & Hc & Hs).
  pose proof (Hs _ _ Hv) as Hne. simpl in Hne.
  unfold modulo. destruct (length v) as [|n] eqn:Hn.
  { by destruct v. }
  simpl.
  destruct (lookup_lt_is_Some_2 v (r `mod` S n)) as [wd Hwd].
  { rewrite Hn. apply Nat.mod_upper_bound. lia. }
  simpl in Hwd. rewrite Hwd.
  destruct (current_prefix c) as [|x cp] eqn:Hcp; [simpl in Hlen; lia|].
  simpl.
  destruct (isValidPrefix (push_back cp wd) _) eqn:Hnext; [|by eexists].
  apply IH; [|done|done].
  split_and!; [exact Hk| |exact Hs].
  unfold cursor_bounded. simpl.
  apply isValidPrefix_true in Hnext as [v' Hv'].
  by rewrite (Hk _ _ Hv').
Qed.

(** The chain a successful [generate] leaves behind. *)
Lemma generate_spec s nwords pref c w s' c' w' :
  generate s nwords pref c w = Ok (s', c', w') →
  mapping c' = mapping c ∧ prefix_len c' = prefix_len c ∧
  isValidPrefix (current_prefix c') c = true ∧
  words_written s' ≤ words_written s + prefix_len c `max` nwords.
Proof.
  unfold generate.
  destruct (if isValidPrefix pref c then Ok (pref, w) else randomPrefix c w)
    as [[cp w1]| |] eqn:Hstart; simpl; [|done..].
  assert (isValidPrefix cp c = true) as Hcp.
  { destruct (isValidPrefix pref c) eqn:Hp.
    - by injection Hstart as <- <-.
    - by eapply randomPrefix_valid. }
  destruct (generate_head (prefix_len c) 0 cp s) as [s1| |] eqn:Hhead;
    simpl; [|done..].
  destruct (generate_walk _ s1 _ _) as [[[s2 c2] w3]| |] eqn:Hwalk;
    simpl; [|done..].
  intros [= <- <- <-].
  apply generate_walk_spec in Hwalk; [|exact Hcp].
  simpl in Hwalk. destruct Hwalk as (? & ? & ? & Hw).
  apply generate_head_words in Hhead.
  split_and!; try done.
  rewrite words_written_app. simpl. lia.
Qed.

Lemma generate_inv s nwords pref c w s' c' w' :
  chain_inv c → generate s nwords pref c w = Ok (s', c', w') → chain_inv c'.
Proof.
  intros (Hk & Hc & Hs) (Hm & Hl & Hv & _)%generate_spec.
  unfold chain_inv, keys_have_length, cursor_bounded, successors_nonempty.
  rewrite Hm, Hl. split_and!; [exact Hk| |exact Hs].
  apply isValidPrefix_true in Hv as [v Hv]. by rewrite (Hk _ _ Hv).
Qed.

Lemma generate_is_Ok s nwords pref c w :
  chain_inv c → 0 < prefix_len c → mapping c ≠ ∅ →
  is_Ok (generate s nwords pref c w).
Proof.
  intros Hinv Hpos Hne. unfold generate.
  assert (∃ cp w1,
    (if isValidPrefix pref c then Ok (pref, w) else randomPrefix c w)
      = Ok (cp, w1) ∧ isValidPrefix cp c = true) as (cp & w1 & -> & Hcp).
  { destruct (isValidPrefix pref c) eqn:Hp; [by eauto|].
    destruct (randomPrefix_is_Ok c w Hne) as [[cp w1] Hr].
    exists cp, w1. split; [done|]. by eapply randomPrefix_valid. }
  simpl.
  destruct (generate_head_is_Ok (prefix_len c) 0 cp s) as [s1 ->].
  { rewrite (valid_prefix_length _ _ Hinv Hcp). lia. }
  simpl.
  destruct (generate_walk_is_Ok (nwords - prefix_len c) s1
    {| mapping := mapping c; current_prefix := cp;
       prefix_len := prefix_len c |} (seed_if_needed w1))
    as [[[s2 c2] w3] ->]; [|done|done|by eexists].
  destruct Hinv as (Hk & Hc & Hs). split_and!; [exact Hk| |exact Hs].
  unfold cursor_bounded. simpl.
  apply isValidPrefix_true in Hcp as [v Hv]. by rewrite (Hk _ _ Hv).
Qed.

Lemma generate_random_is_Ok s nwords c w :
  chain_inv c → 0 < prefix_len c → mapping c ≠ ∅ →
  is_Ok (generate_random s nwords c w).
Proof.
  intros Hinv Hpos Hne. unfold generate_random.
  destruct (randomPrefix_is_Ok c w Hne) as [[start w1] ->]. simpl.
  by apply generate_is_Ok.
Qed.

Lemma generate_random_inv s nwords c w s' c' w' :
  chain_inv c → generate_random s nwords c w = Ok (s', c', w') → chain_inv c'.
Proof.
  intros Hinv. unfold generate_random.
  destruct (randomPrefix c w) as [[start w1]| |]; simpl; [|done..].
  by apply generate_inv.
Qed.
End invariant.

(** * The iteration order of the map *)

Section order.
Implicit Types (x y z : string) (a b d : prefix).

Lemma compare_refl x : String.compare x x = Eq.
Proof.
  pose proof (String.compare_antisym x x) as H.
  by destruct (String.compare x x).
Qed.

Lemma ltb_irrefl x : String.ltb x x = false.
Proof. unfold String.ltb. by rewrite compare_refl. Qed.

Lemma ltb_asym x y : String.ltb x y = true → String.ltb y x = false.
Proof.
  unfold String.ltb. rewrite (String.compare_antisym x y).
  by destruct (String.compare y x).
Qed.

Lemma ltb_trichotomy x y :
  String.ltb x y = false → String.ltb y x = false → x = y.
Proof.
  unfold String.ltb. rewrite (String.compare_antisym x y).
  destruct (String.compare y x) eqn:Hc; try done.
  intros _ _. symmetry. by apply String.compare_eq_iff.
Qed.

Lemma ltb_leb x y : String.ltb x y = true ↔ String.le x y ∧ x ≠ y.
Proof.
  unfold String.le, String.leb, String.ltb.
  destruct (String.compare x y) eqn:Hc; simpl.
  - apply String.compare_eq_iff in Hc as ->. split; [done|]. by intros [_ []].
  - split; [|done]. intros _. split; [done|].
    intros ->. by rewrite compare_refl in Hc.
  - split; [done|]. by intros [[] _].
Qed.

Lemma ltb_trans x y z :
  String.ltb x y = true → String.ltb y z = true → String.ltb x z = true.
Proof.
  intros Hxy Hyz. pose proof (ltb_asym _ _ Hxy) as Hyx.
  apply ltb_leb in Hxy as [Hxy Hne]. apply ltb_leb in Hyz as [Hyz Hne'].
  apply ltb_leb. split; [by etrans|].
  intros ->. apply Hne. by apply (anti_symm String.le).
Qed.

Lemma prefix_lt_irrefl a : prefix_lt a a = false.
Proof. induction a as [|x a IH]; [done|]. simpl. by rewrite ltb_irrefl. Qed.

Lemma prefix_lt_asym a b : prefix_lt a b = true → prefix_lt b a = false.
Proof.
  revert b. induction a as [|x a IH]; intros [|y b]; simpl; try done.
  destruct (String.ltb x y) eqn:Hxy.
  - by rewrite (ltb_asym _ _ Hxy).
  - destruct (String.ltb y x); [done|]. apply IH.
Qed.

Lemma prefix_lt_trichotomy a b :
  prefix_lt a b = false → prefix_lt b a = false → a = b.
Proof.
  revert b. induction a as [|x a IH]; intros [|y b]; simpl; try done.
  destruct (String.ltb x y) eqn:Hxy; [done|].
  destruct (String.ltb y x) eqn:Hyx; [done|].
  rewrite (ltb_trichotomy _ _ Hxy Hyx). intros Hab Hba. f_equal. by apply IH.
Qed.

Lemma prefix_lt_trans a b d :
  prefix_lt a b = true → prefix_lt b d = true → prefix_lt a d = true.
Proof.
  revert b d. induction a as [|x a IH]; intros [|y b] [|z d]; simpl; try done.
  destruct (String.ltb x y) eqn:Hxy.
  - intros _. destruct (String.ltb y z) eqn:Hyz.
    + intros _. by rewrite (ltb_trans _ _ _ Hxy Hyz).
    + destruct (String.ltb z y) eqn:Hzy; [done|].
      by rewrite <- (ltb_trichotomy _ _ Hyz Hzy), Hxy.
  - destruct (String.ltb y x) eqn:Hyx; [done|].
    rewrite <- (ltb_trichotomy _ _ Hxy Hyx).
    destruct (String.ltb x z); [done|].
    destruct (String.ltb z x); [done|]. apply IH.
Qed.

Lemma entry_le_total : Total entry_le.
Proof.
  intros e1 e2. unfold entry_le.
  destruct (prefix_lt e2.1 e1.1) eqn:H; [right|by left].
  by apply prefix_lt_asym.
Qed.

Lemma entry_le_trans : Transitive entry_le.
Proof.
  intros e1 e2 e3. unfold entry_le. intros H21 H32.
  destruct (prefix_lt e3.1 e1.1) eqn:H31; [|done].
  destruct (prefix_lt e1.1 e2.1) eqn:H12.
  - by rewrite (prefix_lt_trans _ _ _ H31 H12) in H32.
  - rewrite <- (prefix_lt_trichotomy _ _ H12 H21) in H32. congruence.
Qed.

Lemma entry_le_strict e1 e2 :
  entry_le e1 e2 → e1.1 ≠ e2.1 → prefix_lt e1.1 e2.1 = true.
Proof.
  unfold entry_le. intros Hle Hne.
  destruct (prefix_lt e1.1 e2.1) eqn:H; [done|].
  destruct Hne. by apply prefix_lt_trichotomy.
Qed.

(** [begin()] .. [end()] visits the keys in strictly increasing order. *)
Lemma entries_sorted c :
  StronglySorted (λ e1 e2, prefix_lt e1.1 e2.1 = true) (entries c).
Proof.
  pose proof (StronglySorted_merge_sort entry_le
    (Transitive0 := entry_le_trans) (Total0 := entry_le_total)
    (map_to_list (mapping c))) as Hsorted.
  pose proof (NoDup_fst_entries c) as Hnd. unfold entries in *.
  induction Hsorted as [|e es Hes IH Hall]; [constructor|].
  rewrite fmap_cons in Hnd. apply NoDup_cons in Hnd as [Hnin Hnd].
  constructor; [by apply IH|].
  apply Forall_forall. intros e' Hin.
  apply entry_le_strict.
  - by eapply Forall_forall in Hall.
  - intros Heq. apply Hnin. rewrite Heq. apply list_elem_of_fmap. by exists e'.
Qed.
End order.

(** * Claims on generation *)

(** C3 (the code departs from the claim): on a chain without entries
    [randomPrefix] and both forms of [generate] compute a remainder by zero,
    which is undefined behaviour; no error is reported. *)
Theorem generate_empty_undefined (len nwords : nat) (s : ostream)
    (pref : prefix) (w : world) :
  randomPrefix (new_chain len) w = Undefined ∧
  generate s nwords pref (new_chain len) w = Undefined ∧
  generate_random s nwords (new_chain len) w = Undefined.
Proof.
  assert (randomPrefix (new_chain len) w = Undefined) as Hr
    by by apply randomPrefix_empty.
  split_and!; [done| |].
  - unfold generate.
    assert (isValidPrefix pref (new_chain len) = false) as ->
      by (unfold isValidPrefix; simpl; by rewrite lookup_empty).
    by rewrite Hr.
  - unfold generate_random. by rewrite Hr.
Qed.

(** The words written by a successful [generate]: at most the larger of the
    word count and the prefix length. *)
Lemma generate_words_bound s nwords pref c w s' c' w' :
  generate s nwords pref c w = Ok (s', c', w') →
  words_written s' ≤ words_written s + prefix_len c `max` nwords.
Proof. by intros (_ & _ & _ & H)%generate_spec. Qed.

(** C4 (the code departs from the claim): asked for one word from the chain
    with the entry the cat -> sat, [generate] writes the two words of the
    starting prefix. *)
Theorem generate_exceeds_word_count (w : world) :
  ∃ s c' w',
    generate [] 1 ["the"; "cat"] the_cat w = Ok (s, c', w') ∧
    s = [Str "the"; Chr " "; Str "cat"; Chr " "; Endl] ∧
    words_written s = 2.
Proof. eexists _, _, _. split; [vm_compute; reflexivity|]. done. Qed.

(** C5, as stated, fails: the text written is not the three words and the
    line break alone, each word is followed by a space. *)
Lemma the_cat_sat_counterexample :
  ¬ (∀ c w, add_all ["the"; "cat"; "sat"] (new_chain 2) = Ok c →
       mapping c = {[ ["the"; "cat"] := ["sat"] ]} ∧
       ∃ s c' w',
         generate [] 3 ["the"; "cat"] c w = Ok (s, c', w') ∧
         contents s = "the cat sat" +:+ String newline EmptyString).
Proof.
  intros H.
  destruct (H the_cat counting_world eq_refl) as (_ & s & c' & w' & Hrun & Hs).
  vm_compute in Hrun. injection Hrun as <- _ _.
  vm_compute in Hs. discriminate Hs.
Qed.

(** C5 (amended): a fresh chain of prefix length 2 trained on the, cat, sat
    has the single entry the cat -> sat, and cat sat is not a valid prefix;
    [generate] from the prefix the cat with word count 3 writes the words
    the, cat, sat, each followed by one space, and then the line break. *)
Theorem the_cat_sat :
  ∃ c, add_all ["the"; "cat"; "sat"] (new_chain 2) = Ok c ∧
       mapping c = {[ ["the"; "cat"] := ["sat"] ]} ∧
       isValidPrefix ["cat"; "sat"] c = false ∧
       ∀ w, ∃ s c' w',
         generate [] 3 ["the"; "cat"] c w = Ok (s, c', w') ∧
         s = [Str "the"; Chr " "; Str "cat"; Chr " "; Str "sat"; Chr " ";
              Endl] ∧
         contents s = "the cat sat " +:+ String newline EmptyString ∧
         words_written s = 3.
Proof.
  exists the_cat. split_and!; [done..|].
  intros w. eexists _, _, _. split; [vm_compute; reflexivity|]. done.
Qed.

(** C8: on a chain with entries, [generate] called with a prefix that is not
    a key gives the result of [generate] called without a prefix, from the
    same state of the random source: the same outcome, and so the same
    output, chain and random source when there is one; on a chain that
    satisfies the state invariant with a positive prefix length there is
    one. *)
Theorem generate_invalid_prefix (s : ostream) (nwords : nat) (pref : prefix)
    (c : chain) (w : world) :
  mapping c ≠ ∅ → isValidPrefix pref c = false →
  generate s nwords pref c w = generate_random s nwords c w ∧
  (chain_inv c → 0 < prefix_len c → is_Ok (generate s nwords pref c w)).
Proof.
  intros Hne Hp. split; [|intros Hinv Hpos; by apply generate_is_Ok].
  unfold generate_random, generate at 1. rewrite Hp.
  destruct (randomPrefix c w) as [[start w1]| |] eqn:Hstart; [|done..].
  cbn [mbind result_bind]. unfold generate.
  by rewrite (randomPrefix_valid _ _ _ _ Hstart).
Qed.

Lemma generate_invalid_prefix_witness :
  generate [] 3 ["a"; "dog"] the_cat counting_world
    = generate_random [] 3 the_cat counting_world ∧
  (chain_inv the_cat → 0 < prefix_len the_cat →
   is_Ok (generate [] 3 ["a"; "dog"] the_cat counting_world)).
Proof.
  apply (generate_invalid_prefix [] 3 ["a"; "dog"] the_cat counting_world).
  - compute_done.
  - vm_compute. reflexivity.
Defined.

(** * Reading *)

Section reading.
Implicit Types (c : chain) (s : istream) (line pstr : string)
  (temp : prefix) (m : gmap prefix (list string)).

(** The first loop of [parseLine] splits at the single spaces. *)
Lemma parse_prefix_fields fuel pstr temp :
  String.length pstr < fuel →
  parse_prefix fuel pstr temp = temp ++ fields pstr.
Proof.
  revert pstr temp. induction fuel as [|fuel IH]; intros pstr temp Hfuel;
    [lia|].
  cbn [parse_prefix]. unfold push_back.
  destruct (find_char space pstr) as [n|] eqn:Hfind.
  - rewrite IH by (apply length_substr_tail in Hfind; lia).
    rewrite (fields_find _ _ Hfind). by rewrite <- app_assoc.
  - rewrite fields_free by done. unfold substr. by rewrite str_drop_0.
Qed.

Lemma push_back_all m temp toks :
  toks ≠ [] →
  foldl (λ m tok, subscript_push_back m temp tok) m toks =
    <[temp := default [] (m !! temp) ++ toks]> m.
Proof.
  revert m. induction toks as [|tok toks IH]; intros m Hne; [done|].
  simpl. rewrite subscript_push_back_eq.
  destruct toks as [|tok' toks]; [done|].
  rewrite IH by done. rewrite lookup_insert_eq, insert_insert_eq. simpl.
  by rewrite <- app_assoc.
Qed.

(** The second loop pushes the same pieces, one by one. *)
Lemma parse_suffixes_foldl fuel pstr temp m :
  String.length pstr < fuel →
  parse_suffixes fuel pstr temp m =
    foldl (λ m tok, subscript_push_back m temp tok) m (fields pstr).
Proof.
  revert pstr m. induction fuel as [|fuel IH]; intros pstr m Hfuel; [lia|].
  cbn [parse_suffixes].
  destruct (find_char space pstr) as [n|] eqn:Hfind.
  - rewrite IH by (apply length_substr_tail in Hfind; lia).
    by rewrite (fields_find _ _ Hfind).
  - rewrite fields_free by done. unfold substr. by rewrite str_drop_0.
Qed.

Lemma parse_suffixes_fields fuel pstr temp m :
  String.length pstr < fuel →
  parse_suffixes fuel pstr temp m =
    <[temp := default [] (m !! temp) ++ fields pstr]> m.
Proof.
  intros Hfuel. rewrite parse_suffixes_foldl by done.
  apply push_back_all, fields_nonempty.
Qed.

(** [parseLine] in the words of the specification. *)
Lemma parseLine_eq line c :
  parseLine line c =
    match find " : " line with
    | None => (false, c)
    | Some cpos =>
        let temp := fields (substr 0 (Some cpos) line) in
        if decide (prefix_len c = 0 ∨ length temp = prefix_len c) then
          (true,
           {| mapping :=
                <[temp := default [] (mapping c !! temp)
                            ++ fields (substr (cpos + 3) None line)]>
                  (mapping c);
              current_prefix := temp;
              prefix_len := length temp |})
        else (false, c)
    end.
Proof.
  unfold parseLine. destruct (find " : " line) as [cpos|]; [|done].
  rewrite parse_prefix_fields by lia. rewrite app_nil_l.
  rewrite parse_suffixes_fields by lia. cbv zeta.
  set (temp := fields (substr 0 (Some cpos) line)).
  destruct (decide (prefix_len c = 0)) as [H0|H0].
  - rewrite decide_True by done. rewrite decide_True by (by left). done.
  - destruct (decide (length temp = prefix_len c)) as [Heq|Hne].
    + rewrite decide_True by (by right). by rewrite Heq.
    + rewrite decide_False by tauto. by destruct c.
Qed.

(** ** The loop of [read] *)

Lemma getline_found s n :
  find_char newline (buf s) = Some n →
  getline s =
    (substr 0 (Some n) (buf s),
     {| buf := substr (n + 1) None (buf s);
        eofbit := eofbit s; failbit := failbit s |}).
Proof. intros H. unfold getline. by rewrite H. Qed.

Lemma read_loop_lines fuel s c :
  String.length (buf s) < fuel → good s = true →
  (read_loop fuel s c).2 =
    foldl (λ c line, (parseLine line c).2) c (complete_lines (buf s)).
Proof.
  revert s c. induction fuel as [|fuel IH]; intros s c Hfuel Hgood; [lia|].
  cbn [read_loop]. rewrite Hgood.
  destruct (find_char newline (buf s)) as [n|] eqn:Hfind.
  - rewrite (getline_found _ _ Hfind).
    assert (good {| buf := substr (n + 1) None (buf s);
                    eofbit := eofbit s; failbit := failbit s |} = true)
      as Hgood' by done.
    rewrite Hgood'.
    rewrite IH; [|cbn [buf]; apply length_substr_tail in Hfind; lia|done].
    cbn [buf]. by rewrite (complete_lines_find _ _ Hfind).
  - unfold getline. rewrite Hfind. simpl.
    rewrite complete_lines_free by done.
    by destruct fuel.
Qed.

Lemma read_stream_of text c :
  (read (stream_of text) c).2 =
    foldl (λ c line, (parseLine line c).2) (new_chain 0)
      (complete_lines text).
Proof. unfold read. rewrite read_loop_lines; [done|simpl; lia|done]. Qed.

Lemma read_not_good s c : good s = false → (read s c).2 = new_chain 0.
Proof. intros H. unfold read. simpl. by rewrite H. Qed.

(** ** What [read] keeps invariant *)

Lemma parseLine_well_formed line c : well_formed c → well_formed (parseLine line c).2.
Proof.
  intros Hinv. pose proof Hinv as [(Hk & Hc & Hs) H0]. rewrite parseLine_eq.
  destruct (find " : " line) as [cpos|]; [|done]. cbv zeta.
  pose proof (fields_nonempty (substr 0 (Some cpos) line)) as Htemp.
  pose proof (fields_nonempty (substr (cpos + 3) None line)) as Hsuf.
  destruct (fields (substr 0 (Some cpos) line)) as [|p temp]; [done|].
  case_decide as Hlen; [|done].
  split; [|done]. split_and!.
  - apply map_Forall_insert_2; [done|].
    destruct Hlen as [Hz|Heq].
    + rewrite (H0 Hz). apply map_Forall_empty.
    + cbn [prefix_len]. rewrite Heq. exact Hk.
  - unfold cursor_bounded. simpl. lia.
  - apply map_Forall_insert_2; [|exact Hs].
    by destruct (default [] _), (fields (substr (cpos + 3) None line)).
Qed.

Lemma read_loop_well_formed fuel s c :
  well_formed c → well_formed (read_loop fuel s c).2.
Proof.
  revert s c. induction fuel as [|fuel IH]; intros s c Hinv; [done|].
  simpl. destruct (good s); [|done].
  destruct (getline s) as [line s']. apply IH.
  destruct (good s'); [|done]. by apply parseLine_well_formed.
Qed.

Lemma read_well_formed s c : well_formed (read s c).2.
Proof.
  apply read_loop_well_formed. split; [apply new_chain_inv|done].
Qed.

Lemma read_chain_inv s c : chain_inv (read s c).2.
Proof. apply read_well_formed. Qed.

(** ** The chains the operations produce *)

Lemma add_well_formed t c c' : well_formed c → add t c = Ok c' → well_formed c'.
Proof.
  intros [Hinv H0] Hadd. split; [by eapply add_inv|].
  revert Hadd. unfold add. case_decide as Hfull.
  - destruct (current_prefix c) as [|x cp] eqn:Hcp; [done|].
    simpl. intros [= <-]. simpl in *. lia.
  - intros [= <-]. exact H0.
Qed.

Lemma add_loop_well_formed fuel i c i' c' :
  well_formed c → add_loop fuel i c = Ok (i', c') → well_formed c'.
Proof.
  revert i c. induction fuel as [|fuel IH]; intros i c Hwf; simpl.
  - by intros [= _ <-].
  - destruct (extract i) as [[b|] i1].
    + destruct (add b c) as [c1| |] eqn:Hadd; simpl; [|done..].
      apply IH. by eapply add_well_formed.
    + by intros [= _ <-].
Qed.

Lemma generate_well_formed (o : ostream) nwords pref c w (o' : ostream) c' w' :
  well_formed c → generate o nwords pref c w = Ok (o', c', w') →
  well_formed c'.
Proof.
  intros [Hinv H0] Hgen. split; [by eapply generate_inv|].
  apply generate_spec in Hgen as (-> & -> & _). exact H0.
Qed.

Lemma set_currentPrefix_inv p c :
  chain_inv c → chain_inv (set_currentPrefix p c).2.
Proof.
  intros Hinv. unfold set_currentPrefix.
  destruct (isValidPrefix p c) eqn:Hp; [|done]. cbn [snd].
  destruct Hinv as (Hk & Hc & Hs). split_and!; [exact Hk| |exact Hs].
  unfold cursor_bounded. cbn [current_prefix prefix_len].
  apply isValidPrefix_true in Hp as [v Hv]. by rewrite (Hk _ _ Hv).
Qed.

(** Every chain the operations produce satisfies the state invariant, and
    has a positive prefix length when it has entries. *)
Lemma reachable_well_formed c : reachable c → well_formed c.
Proof.
  induction 1 as [len|t c c' _ IH Hadd|i r c i' c' _ IH Hadd
                 |s n p c w s' c' w' _ IH Hgen|s n c w s' c' w' _ IH Hgen
                 |i c _ IH|len c _ IH|p c _ IH].
  - split; [apply new_chain_inv|done].
  - by eapply add_well_formed.
  - unfold add_stream in Hadd. eapply add_loop_well_formed; [|exact Hadd].
    destruct r; [|done]. destruct IH as [(Hk & Hc & Hs) H0].
    split; [|exact H0]. split_and!; [exact Hk| |exact Hs].
    unfold cursor_bounded. simpl. lia.
  - by eapply generate_well_formed.
  - unfold generate_random in Hgen.
    destruct (randomPrefix c w) as [[start w1]| |]; simpl in Hgen; [|done..].
    by eapply generate_well_formed.
  - apply read_well_formed.
  - split; [apply new_chain_inv|done].
  - destruct IH as [Hinv H0]. split; [by apply set_currentPrefix_inv|].
    unfold set_currentPrefix. by destruct (isValidPrefix p c).
Qed.
End reading.

(** * Claims on reading and on the state invariant *)

(** C7, as stated for every input line, fails: [read] does not parse a final
    line that no line break ends.  In the text of the two lines
    the cat : sat and the cat : ran, the second without a line break, the
    second line has the separator and the established number of prefix
    tokens, yet its successor is not appended: the chain read has the
    successors sat alone for the prefix the, cat. *)
Lemma read_every_line_counterexample :
  ¬ (∀ (text : string) (c0 : chain),
       (read (stream_of text) c0).2 =
         foldl (λ c line, (parseLine line c).2) (new_chain 0)
           (input_lines text)).
Proof.
  intros H.
  specialize (H (entry_line (["the"; "cat"], ["sat"]) +:+ "the cat : ran")
                (new_chain 2)).
  apply (f_equal (λ c, mapping c !! ["the"; "cat"])) in H.
  vm_compute in H. discriminate H.
Qed.

(** C7 (amended): [read] parses the lines that end with a line break, in
    order, into a chain reset to the unset prefix length 0; what follows the
    last line break is not parsed.  A line without the separator
    leaves the chain as it is.  Otherwise the part before the first separator
    is split at the single spaces into at least one prefix token; when no
    line was parsed yet the number of these tokens becomes the prefix length,
    when it differs from the established prefix length the line leaves the
    chain as it is, and else the tokens after the separator, split at the
    single spaces, are appended to the successors of the prefix, which becomes
    the current prefix. *)
Theorem parseLine_tolerance (line text : string) (c c0 : chain) :
  parseLine line c =
    match find " : " line with
    | None => (false, c)
    | Some cpos =>
        let temp := fields (substr 0 (Some cpos) line) in
        if decide (prefix_len c = 0 ∨ length temp = prefix_len c) then
          (true,
           {| mapping :=
                <[temp := default [] (mapping c !! temp)
                            ++ fields (substr (cpos + 3) None line)]>
                  (mapping c);
              current_prefix := temp;
              prefix_len := length temp |})
        else (false, c)
    end
  ∧ fields line ≠ []
  ∧ (read (stream_of text) c0).2 =
      foldl (λ c line, (parseLine line c).2) (new_chain 0)
        (complete_lines text).
Proof.
  split_and!;
    [apply parseLine_eq|apply fields_nonempty|apply read_stream_of].
Qed.

(** C10: what follows the last line break of the input is never parsed, so a
    final line without a line break is dropped, also when [parseLine] would
    accept it. *)
Theorem read_drops_unterminated_line (text last : string) (c0 : chain) :
  char_free newline last →
  (read (stream_of (text +:+ last)) c0).2 = (read (stream_of text) c0).2.
Proof.
  intros Hlast. by rewrite !read_stream_of, complete_lines_app_free.
Qed.

Lemma read_drops_unterminated_line_witness :
  (parseLine "a dog : ran" the_cat).1 = true ∧
  (read (stream_of (entry_line (["the"; "cat"], ["sat"]) +:+ "a dog : ran"))
     (new_chain 2)).2
  = (read (stream_of (entry_line (["the"; "cat"], ["sat"]))) (new_chain 2)).2.
Proof.
  split; [reflexivity|].
  apply (read_drops_unterminated_line
           (entry_line (["the"; "cat"], ["sat"])) "a dog : ran" (new_chain 2)).
  reflexivity.
Defined.

(** C9: the state invariant (every key has [prefix_len] tokens, the current
    prefix has at most [prefix_len] tokens, no successor list is empty) holds
    for a fresh chain and for the chain left by each operation that is
    applied to a chain satisfying it: both forms of [add], both forms of
    [generate], [read], the prefix length setter and the cursor setter;
    [write] returns no chain.  So it holds for every chain these operations
    produce.  Both forms of [add] leave a chain when the prefix length is
    positive, both forms of [generate] when moreover the chain has
    entries. *)
Theorem chain_inv_preserved (c : chain) :
  chain_inv c →
  (∀ len, chain_inv (new_chain len)) ∧
  (∀ t c', add t c = Ok c' → chain_inv c') ∧
  (∀ i r i' c', add_stream i r c = Ok (i', c') → chain_inv c') ∧
  (∀ s n p w s' c' w', generate s n p c w = Ok (s', c', w') → chain_inv c') ∧
  (∀ s n w s' c' w',
     generate_random s n c w = Ok (s', c', w') → chain_inv c') ∧
  (∀ i, chain_inv (read i c).2) ∧
  (∀ len, chain_inv (set_prefixLength len c).2) ∧
  (∀ p, chain_inv (set_currentPrefix p c).2) ∧
  (∀ c0, reachable c0 → chain_inv c0) ∧
  (0 < prefix_len c →
   (∀ t, is_Ok (add t c)) ∧ (∀ i r, is_Ok (add_stream i r c)) ∧
   (mapping c ≠ ∅ →
    (∀ s n p w, is_Ok (generate s n p c w)) ∧
    (∀ s n w, is_Ok (generate_random s n c w)))).
Proof.
  intros Hinv. split_and!.
  - apply new_chain_inv.
  - intros t c'. by apply add_inv.
  - intros i r i' c'. by apply add_stream_inv.
  - intros s n p w s' c' w'. by apply generate_inv.
  - intros s n w s' c' w'. by apply generate_random_inv.
  - intros i. apply read_chain_inv.
  - intros len. apply new_chain_inv.
  - intros p. by apply set_currentPrefix_inv.
  - intros c0 Hc0. by apply reachable_well_formed.
  - intros Hpos. split_and!.
    + intros t. by apply add_is_Ok.
    + intros i r. by apply add_stream_is_Ok.
    + intros Hne. split.
      * intros s n p w. by apply generate_is_Ok.
      * intros s n w. by apply generate_random_is_Ok.
Qed.

Lemma chain_inv_preserved_witness :
  chain_inv {| mapping := <[ ["cat"; "sat"] := ["on"] ]> (mapping the_cat);
               current_prefix := ["sat"; "on"]; prefix_len := 2 |}.
Proof.
  assert (chain_inv the_cat) as Hinv by compute_done.
  destruct (chain_inv_preserved the_cat Hinv) as (_ & Hadd & _).
  apply (Hadd "on"). reflexivity.
Defined.

(** * Writing *)

Section writing.
Implicit Types (c : chain) (s : ostream) (e : entry) (k v : list string).

Lemma contents_app s1 s2 : contents (s1 ++ s2) = contents s1 +:+ contents s2.
Proof.
  induction s1 as [|i s1 IH]; [done|].
  simpl. by rewrite IH, str_app_assoc.
Qed.

Lemma concat_cons_cons (sep p q : string) (ps : list string) :
  String.concat sep (p :: q :: ps) = p +:+ sep +:+ String.concat sep (q :: ps).
Proof. done. Qed.

Lemma write_prefix_cons p k s :
  write_prefix (p :: k) s = write_prefix k (s ++ [Str p; Chr space]).
Proof. done. Qed.

Lemma write_suffixes_cons_cons x y v s :
  write_suffixes (x :: y :: v) s =
    write_suffixes (y :: v) ((s ++ [Str x]) ++ [Chr space]).
Proof. done. Qed.

Lemma write_prefix_contents k s (rest : string) :
  k ≠ [] →
  contents (write_prefix k s) +:+ ": " +:+ rest =
    contents s +:+ String.concat " " k +:+ " : " +:+ rest.
Proof.
  revert s. induction k as [|p k IH]; intros s Hne; [done|].
  destruct k as [|q k].
  - cbn [write_prefix]. rewrite contents_app. simpl.
    by rewrite <- !str_app_assoc.
  - rewrite write_prefix_cons, IH by done.
    rewrite contents_app, concat_cons_cons. simpl.
    by rewrite <- !str_app_assoc.
Qed.

Lemma write_suffixes_contents v s :
  v ≠ [] →
  contents (write_suffixes v s) =
    contents s +:+ String.concat " " v +:+ String newline EmptyString.
Proof.
  revert s. induction v as [|x v IH]; intros s Hne; [done|].
  destruct v as [|y v].
  - simpl. rewrite !contents_app. simpl. by rewrite <- !str_app_assoc.
  - rewrite write_suffixes_cons_cons, IH by done.
    rewrite !contents_app, concat_cons_cons. simpl.
    by rewrite <- !str_app_assoc.
Qed.

Lemma write_entry_contents e s :
  e.1 ≠ [] → e.2 ≠ [] →
  contents (write_entry e s) = contents s +:+ entry_line e.
Proof.
  intros Hk Hv. unfold write_entry, entry_line, entry_body.
  rewrite write_suffixes_contents by done.
  rewrite contents_app. simpl. rewrite str_app_nil_r.
  rewrite <- !str_app_assoc.
  by rewrite write_prefix_contents by done.
Qed.

Lemma write_entries_contents es s :
  Forall (λ e, e.1 ≠ [] ∧ e.2 ≠ []) es →
  contents (write_entries es s) = contents s +:+ entry_lines es.
Proof.
  revert s. induction es as [|e es IH]; intros s Hes; simpl.
  - by rewrite str_app_nil_r.
  - apply Forall_cons in Hes as [[Hk Hv] Hes].
    rewrite IH by done. rewrite write_entry_contents by done.
    by rewrite <- str_app_assoc.
Qed.

Lemma entries_nonempty c :
  well_formed c → Forall (λ e, e.1 ≠ [] ∧ e.2 ≠ []) (entries c).
Proof.
  intros [(Hk & _ & Hs) H0]. apply Forall_forall. intros [k v] Hin.
  apply elem_of_entries in Hin. simpl. split.
  - pose proof (Hk _ _ Hin) as Hlen. simpl in Hlen.
    intros ->. simpl in Hlen. symmetry in Hlen.
    rewrite (H0 Hlen) in Hin. by rewrite lookup_empty in Hin.
  - exact (Hs _ _ Hin).
Qed.

Lemma write_contents c s :
  well_formed c →
  contents (write s c) = contents s +:+ entry_lines (entries c).
Proof.
  intros Hwf. unfold write.
  by apply write_entries_contents, entries_nonempty.
Qed.
End writing.

(** * Writing, then reading *)

Section roundtrip.
Implicit Types (c : chain) (e : entry) (k v ps : list string)
  (p q rest : string).

(** ** Finding the separator *)

Lemma fmap_add_0 (o : option nat) : (λ n, 0 + n) <$> o = o.
Proof. by destruct o. Qed.

Lemma prefix_cons a1 a2 p q :
  String.prefix (String a1 p) (String a2 q) =
    if ascii_dec a1 a2 then String.prefix p q else false.
Proof. done. Qed.

(** A token without spaces cannot hold the start of the separator. *)
Lemma find_sep_skip p rest :
  char_free space p →
  find " : " (p +:+ rest) = (λ n, String.length p + n) <$> find " : " rest.
Proof.
  induction p as [|a p IH]; intros Hp.
  - rewrite str_app_nil_l. by rewrite fmap_add_0.
  - apply char_free_cons in Hp as [Hne Hp].
    rewrite str_app_cons, find_unfold.
    assert (String.prefix " : " (String a (p +:+ rest)) = false) as ->.
    { rewrite prefix_cons.
      destruct (ascii_dec " " a) as [<-|]; [by destruct Hne|done]. }
    rewrite (IH Hp). by destruct (find " : " rest).
Qed.

(** A space before a token other than the lone colon is not the start of
    the separator either. *)
Lemma prefix_sep_token q rest :
  char_free space q → q ≠ ":" →
  String.prefix " : " (String space (q +:+ String space rest)) = false.
Proof.
  intros Hq Hne. destruct q as [|b q].
  - rewrite str_app_nil_l. by rewrite !prefix_cons.
  - apply char_free_cons in Hq as [Hb Hq].
    rewrite str_app_cons, prefix_cons.
    destruct (ascii_dec " " space) as [_|]; [|done].
    rewrite prefix_cons. destruct (ascii_dec ":" b) as [<-|]; [|done].
    destruct q as [|b' q]; [done|].
    apply char_free_cons in Hq as [Hb' Hq].
    rewrite str_app_cons, prefix_cons.
    destruct (ascii_dec " " b') as [<-|]; [by destruct Hb'|done].
Qed.

Lemma concat_spaced p ps : String.concat " " (p :: ps) = p +:+ spaced ps.
Proof.
  revert p. induction ps as [|q ps IH]; intros p.
  - simpl. by rewrite str_app_nil_r.
  - rewrite concat_cons_cons, IH. done.
Qed.

Lemma find_sep_spaced ps rest :
  Forall (char_free space) ps → Forall (λ t, t ≠ ":") ps →
  find " : " (spaced ps +:+ " : " +:+ rest) =
    Some (String.length (spaced ps)).
Proof.
  induction ps as [|q ps IH]; intros Hfree Hcolon.
  { rewrite find_unfold. cbn [spaced]. rewrite str_app_nil_l.
    by destruct rest. }
  apply Forall_cons in Hfree as [Hq Hfree].
  apply Forall_cons in Hcolon as [Hne Hcolon].
  cbn [spaced]. rewrite str_app_cons, <- str_app_assoc, find_unfold.
  assert (∃ u, spaced ps +:+ " : " +:+ rest = String space u) as [u Hu].
  { destruct ps; by eexists. }
  rewrite Hu at 1. rewrite prefix_sep_token by done.
  rewrite find_sep_skip by done. rewrite IH by done. simpl.
  by rewrite str_length_app.
Qed.

Lemma find_sep_entry p ps rest :
  Forall (char_free space) (p :: ps) → Forall (λ t, t ≠ ":") ps →
  find " : " (String.concat " " (p :: ps) +:+ " : " +:+ rest) =
    Some (String.length (String.concat " " (p :: ps))).
Proof.
  intros [Hp Hps]%Forall_cons Hcolon.
  rewrite concat_spaced, <- str_app_assoc.
  rewrite find_sep_skip by done. rewrite find_sep_spaced by done. simpl.
  by rewrite str_length_app.
Qed.

Lemma fields_concat p ps :
  Forall (char_free space) (p :: ps) →
  fields (String.concat " " (p :: ps)) = p :: ps.
Proof.
  revert p. induction ps as [|q ps IH]; intros p [Hp Hps]%Forall_cons.
  - by apply fields_free.
  - rewrite concat_cons_cons. change (" " +:+ ?x) with (String space x).
    rewrite fields_app by done. by rewrite IH.
Qed.

Lemma char_free_concat a ps :
  a ≠ space → Forall (char_free a) ps → char_free a (String.concat " " ps).
Proof.
  intros Ha. induction ps as [|p ps IH]; intros Hps; [done|].
  apply Forall_cons in Hps as [Hp Hps].
  destruct ps as [|q ps]; [done|].
  rewrite concat_cons_cons. apply char_free_app. split; [done|].
  change (" " +:+ ?x) with (String space x).
  apply char_free_cons. split; [done|]. by apply IH.
Qed.

(** ** Reading one written line *)

Lemma str_drop_sep p rest :
  str_drop (String.length p + 3) (p +:+ " : " +:+ rest) = rest.
Proof.
  rewrite (str_app_assoc p " : " rest).
  replace (String.length p + 3) with (String.length (p +:+ " : "))
    by (by rewrite str_length_app).
  apply str_drop_app.
Qed.

Lemma parseLine_entry_body k v c :
  k ≠ [] → v ≠ [] → serializable_entry k v →
  prefix_len c = 0 ∨ length k = prefix_len c →
  parseLine (entry_body (k, v)) c =
    (true,
     {| mapping := <[k := default [] (mapping c !! k) ++ v]> (mapping c);
        current_prefix := k;
        prefix_len := length k |}).
Proof.
  intros Hk Hv (Hck & Hcv & Hcolon) Hlen.
  destruct k as [|p ps]; [done|]. destruct v as [|x xs]; [done|].
  assert (Forall (char_free space) (p :: ps)) as Hfk.
  { eapply Forall_impl; [exact Hck|]. by intros ? []. }
  assert (Forall (char_free space) (x :: xs)) as Hfv.
  { eapply Forall_impl; [exact Hcv|]. by intros ? []. }
  rewrite parseLine_eq. unfold entry_body. cbn [fst snd].
  rewrite find_sep_entry by done. cbv zeta.
  unfold substr. rewrite str_drop_0, str_take_app, str_drop_sep.
  rewrite !fields_concat by done.
  by rewrite decide_True.
Qed.

Lemma serializable_one_line k v : serializable_entry k v → one_line_entry k v.
Proof.
  intros (Hck & Hcv & _).
  split; (eapply Forall_impl; [eassumption|]); by intros ? [].
Qed.

Lemma entry_body_newline_free k v :
  one_line_entry k v → char_free newline (entry_body (k, v)).
Proof.
  intros [Hk Hv]. unfold entry_body. cbn [fst snd].
  rewrite !char_free_app. split_and!; [|done|]; by apply char_free_concat.
Qed.

Lemma complete_lines_entry_lines es :
  Forall (λ e, one_line_entry e.1 e.2) es →
  complete_lines (entry_lines es) = entry_body <$> es.
Proof.
  induction es as [|[k v] es IH]; intros Hes; [done|].
  apply Forall_cons in Hes as [He Hes].
  cbn [entry_lines]. unfold entry_line.
  rewrite <- str_app_assoc. rewrite str_app_cons, str_app_nil_l.
  rewrite complete_lines_app by by apply entry_body_newline_free.
  by rewrite IH.
Qed.

(** ** Reading all written lines *)

(** The chain after the lines of [es] have been parsed into a chain
    reset by [read]. *)
Lemma parse_entry_bodies n es :
  0 < n → NoDup es.*1 →
  Forall (λ e, length e.1 = n ∧ e.2 ≠ [] ∧ serializable_entry e.1 e.2) es →
  foldl (λ c line, (parseLine line c).2) (new_chain 0) (entry_body <$> es) =
    match last es with
    | None => new_chain 0
    | Some e => {| mapping := list_to_map es; current_prefix := e.1;
                   prefix_len := n |}
    end.
Proof.
  intros Hn. induction es as [|[k v] es IH] using rev_ind; intros Hnd Hes;
    [done|].
  rewrite fmap_app, foldl_app, last_snoc. cbn [fmap list_fmap foldl].
  rewrite fmap_app in Hnd. apply NoDup_app in Hnd as (Hnd & Hnin & _).
  apply Forall_app in Hes as [Hes [(Hlen & Hv & Hser) _]%Forall_cons].
  cbn [fst snd] in *.
  assert (k ∉ es.*1) as Hk.
  { intros Hin. apply (Hnin _ Hin). simpl. left. }
  assert (k ≠ []) as Hkne by (destruct k; [simpl in Hlen; lia|done]).
  rewrite IH by done.
  destruct (last es) as [e'|] eqn:Hlast.
  - rewrite parseLine_entry_body; [|done|done|done|by right].
    cbn [snd mapping]. rewrite Hlen. f_equal.
    rewrite list_to_map_snoc by done.
    by rewrite (proj1 (not_elem_of_list_to_map _ _) Hk).
  - apply last_None in Hlast as ->.
    rewrite parseLine_entry_body; [|done|done|done|by left].
    cbn [snd]. by rewrite Hlen.
Qed.
End roundtrip.

(** * Claims on writing *)

Lemma reachable_add_all ts c c' :
  reachable c → add_all ts c = Ok c' → reachable c'.
Proof.
  revert c. induction ts as [|t ts IH]; intros c Hc; simpl.
  - by intros [= <-].
  - destruct (add t c) as [c1| |] eqn:Hadd; simpl; [|done..].
    apply IH. by eapply reach_add.
Qed.

(** The running example is a chain that training produces. *)
Lemma the_cat_reachable : reachable the_cat.
Proof.
  apply (reachable_add_all ["the"; "cat"; "sat"] (new_chain 2));
    [apply reach_new|reflexivity].
Qed.

(** C6: for every chain that the operations of the class produce, [write]
    appends to the sink, for each entry of the map, the prefix tokens
    separated by single spaces, the separator of space, colon, space, the
    successor tokens separated by single spaces, and a line break; there are
    as many entries as the map has keys, and when no token holds a line break
    these are the lines of the text written.  For the chain whose
    only entry is the cat -> sat the text written is the line
    [the cat : sat]. *)
Theorem write_format (c : chain) (s : ostream) :
  reachable c →
  contents (write s c) = contents s +:+ entry_lines (entries c) ∧
  length (entries c) = size (mapping c) ∧
  (∀ k v, (k, v) ∈ entries c ↔ mapping c !! k = Some v) ∧
  (one_line_entries c →
   complete_lines (contents (write [] c)) = entry_body <$> entries c) ∧
  (mapping c = {[ ["the"; "cat"] := ["sat"] ]} →
   contents (write [] c) = "the cat : sat" +:+ String newline EmptyString).
Proof.
  intros Hwf%reachable_well_formed. split_and!.
  - by apply write_contents.
  - apply length_entries.
  - intros k v. apply elem_of_entries.
  - intros Hser. rewrite write_contents by done.
    cbn [contents]. rewrite str_app_nil_l.
    apply complete_lines_entry_lines, Forall_forall. intros [k v] Hin.
    apply elem_of_entries in Hin. exact (Hser _ _ Hin).
  - intros Hm. unfold write, entries. rewrite Hm. reflexivity.
Qed.

Lemma write_format_witness :
  contents (write [] the_cat)
    = contents [] +:+ entry_lines (entries the_cat) ∧
  length (entries the_cat) = size (mapping the_cat) ∧
  (∀ k v, (k, v) ∈ entries the_cat ↔ mapping the_cat !! k = Some v) ∧
  (one_line_entries the_cat →
   complete_lines (contents (write [] the_cat))
     = entry_body <$> entries the_cat) ∧
  (mapping the_cat = {[ ["the"; "cat"] := ["sat"] ]} →
   contents (write [] the_cat)
     = "the cat : sat" +:+ String newline EmptyString).
Proof. exact (write_format the_cat [] the_cat_reachable). Defined.

(** * Claims on writing, then reading *)

(** C2, as stated, fails: a chain without entries is written as the empty
    text, and reading it back leaves the unset prefix length 0. *)
Lemma write_read_counterexample :
  prefix_len
    (read (stream_of (contents (write [] (new_chain 2)))) (new_chain 2)).2
  ≠ prefix_len (new_chain 2).
Proof. vm_compute. discriminate. Qed.

(** A lone colon among the prefix tokens is read back as the separator. *)
Lemma write_read_colon_token :
  ∃ c, add_all ["a"; ":"; "b"] (new_chain 2) = Ok c ∧
       mapping c = {[ ["a"; ":"] := ["b"] ]} ∧
       mapping (read (stream_of (contents (write [] c))) (new_chain 2)).2
         = {[ ["a"] := [":"; "b"] ]}.
Proof. eexists. split; [reflexivity|]. split; reflexivity. Qed.

(** C2 (amended): let the chain be one that the operations of the class
    produce, its tokens hold no space and no line break, and no prefix hold a
    lone colon after its first token.  Reading what [write] wrote gives a
    chain with the same map.  When the map has entries the prefix length is
    the same too, and the current prefix is the key of the last line written;
    when it has none the prefix length is 0 and the current prefix is
    empty. *)
Theorem write_read_roundtrip (c c0 : chain) :
  reachable c → serializable c →
  let c' := (read (stream_of (contents (write [] c))) c0).2 in
  mapping c' = mapping c ∧
  (mapping c ≠ ∅ →
   prefix_len c' = prefix_len c ∧
   ∃ v, last (entries c) = Some (current_prefix c', v)) ∧
  (mapping c = ∅ → prefix_len c' = 0 ∧ current_prefix c' = []).
Proof.
  intros Hwf%reachable_well_formed Hser c'. subst c'.
  rewrite read_stream_of, write_contents by done.
  cbn [contents]. rewrite str_app_nil_l.
  assert (entries c = [] ↔ mapping c = ∅) as Hempty.
  { rewrite <- map_to_list_empty_iff.
    pose proof (entries_Permutation c) as Hperm.
    split; intros H; rewrite H in Hperm.
    - symmetry in Hperm. by apply Permutation_nil_r in Hperm.
    - by apply Permutation_nil_r in Hperm. }
  destruct Hwf as [(Hk & _ & Hs) H0].
  destruct (decide (prefix_len c = 0)) as [Hz|Hpos].
  { pose proof (H0 Hz) as Hm. rewrite (proj2 Hempty Hm). by rewrite Hm. }
  assert (Forall (λ e, length e.1 = prefix_len c ∧ e.2 ≠ [] ∧
                       serializable_entry e.1 e.2) (entries c)) as Hes.
  { apply Forall_forall. intros [k v] Hin. apply elem_of_entries in Hin.
    split_and!; [exact (Hk _ _ Hin)|exact (Hs _ _ Hin)|exact (Hser _ _ Hin)]. }
  rewrite complete_lines_entry_lines
    by (eapply Forall_impl; [exact Hes|];
        intros ? (_ & _ & ?); by apply serializable_one_line).
  rewrite (parse_entry_bodies (prefix_len c))
    by first [done|lia|apply NoDup_fst_entries].
  assert (list_to_map (entries c) = mapping c) as Hmap.
  { etrans; [|apply (list_to_map_to_list (mapping c))].
    apply list_to_map_proper;
      [apply NoDup_fst_entries|apply entries_Permutation]. }
  destruct (last (entries c)) as [[k v]|] eqn:Hlast.
  - cbn [mapping prefix_len current_prefix fst]. split_and!; [done| |].
    + intros _. split; [done|]. by exists v.
    + intros Hm. apply Hempty in Hm. by rewrite Hm in Hlast.
  - apply last_None in Hlast. pose proof (proj1 Hempty Hlast) as Hm.
    cbn [new_chain mapping prefix_len current_prefix].
    split_and!; [done|done|done].
Qed.

Lemma write_read_roundtrip_witness :
  let c' := (read (stream_of (contents (write [] the_cat))) (new_chain 5)).2 in
  mapping c' = mapping the_cat ∧
  (mapping the_cat ≠ ∅ →
   prefix_len c' = prefix_len the_cat ∧
   ∃ v, last (entries the_cat) = Some (current_prefix c', v)) ∧
  (mapping the_cat = ∅ → prefix_len c' = 0 ∧ current_prefix c' = []).
Proof.
  apply (write_read_roundtrip the_cat (new_chain 5)).
  - exact the_cat_reachable.
  - compute_done.
Defined.

(** * More on training *)

Section training_more.
Implicit Types (c : chain) (t : string) (ts : list string) (k : prefix).

Lemma followers_short n k ts : length ts ≤ n → followers n k ts = [].
Proof.
  induction ts as [|u ts IH]; intros Hlen; [done|].
  cbn [followers]. rewrite IH by (simpl in Hlen; lia).
  rewrite (lookup_ge_None_2 (u :: ts) n) by done.
  by case_decide.
Qed.

Lemma followers_snoc n k ts t :
  0 < n →
  followers n k (ts ++ [t]) =
    followers n k ts ++
    (if decide (n ≤ length ts ∧ drop (length ts - n) ts = k)
     then [t] else []).
Proof.
  intros Hn. induction ts as [|u ts IH].
  - cbn [app followers]. rewrite (lookup_ge_None_2 [t] n) by (simpl; lia).
    rewrite (decide_False (P := _ ∧ _)) by (simpl; lia). by case_decide.
  - rewrite <- app_comm_cons. cbn [followers]. rewrite IH. clear IH.
    destruct (decide (n ≤ length ts)) as [Hle|Hgt].
    + rewrite app_comm_cons, take_app_le by (simpl; lia).
      rewrite lookup_app_l by (simpl; lia).
      rewrite <- app_assoc. do 2 f_equal.
      cbn [length].
      replace (S (length ts) - n) with (S (length ts - n)) by lia.
      cbn [drop]. apply decide_ext. split; intros [? ?]; split; done || lia.
    + rewrite (followers_short n k ts) by lia.
      rewrite (decide_False (P := n ≤ length ts ∧ _)) by lia.
      rewrite !app_nil_r. cbn [length].
      destruct (decide (n = S (length ts))) as [->|Hne].
      * rewrite Nat.sub_diag, drop_0.
        rewrite (lookup_ge_None_2 (u :: ts) (S (length ts))) by done.
        rewrite app_comm_cons, take_app_length' by done.
        rewrite (list_lookup_middle (u :: ts) [] t) by done.
        repeat case_decide; simpl; try done; exfalso; intuition.
      * rewrite (lookup_ge_None_2 (u :: ts ++ [t]) n)
          by (simpl; rewrite length_app; simpl; lia).
        rewrite (lookup_ge_None_2 (u :: ts) n) by (simpl; lia).
        rewrite (decide_False (P := _ ∧ _)) by lia.
        by repeat case_decide.
Qed.


Lemma pushed_nil o : pushed o [] = o.
Proof. done. Qed.

Lemma pushed_snoc o f t :
  pushed o (f ++ [t]) = Some (default [] (pushed o f) ++ [t]).
Proof.
  unfold pushed. rewrite decide_False by by destruct f.
  case_decide as Hf; [by rewrite Hf|]. simpl. by rewrite <- app_assoc.
Qed.

Lemma pushed_pushed o f1 f2 : pushed (pushed o f1) f2 = pushed o (f1 ++ f2).
Proof.
  unfold pushed. destruct f1 as [|x f1]; [done|].
  rewrite (decide_False (P := x :: f1 = [])) by done.
  rewrite (decide_False (P := (x :: f1) ++ f2 = [])) by done.
  case_decide as Hf; [by rewrite Hf, app_nil_r|]. simpl.
  by rewrite <- app_assoc.
Qed.

(** The chain after the tokens [ts] have been added to a chain with an empty
    window. *)
Lemma add_all_from n ts c0 :
  0 < n → prefix_len c0 = n → current_prefix c0 = [] →
  ∃ c, add_all ts c0 = Ok c ∧
       prefix_len c = n ∧
       current_prefix c = drop (length ts - n) ts ∧
       ∀ k, mapping c !! k = pushed (mapping c0 !! k) (followers n k ts).
Proof.
  intros Hn Hlen0 Hcp0. induction ts as [|t ts IH] using rev_ind.
  - exists c0. by split_and!.
  - destruct IH as (c & Hrun & Hlen & Hcp & Hmap).
    rewrite add_all_app, Hrun. simpl.
    rewrite add_eq by lia.
    eexists. split; [done|].
    rewrite length_app. simpl.
    assert (length (current_prefix c) = Nat.min n (length ts)) as Hl.
    { rewrite Hcp, length_drop. lia. }
    case_decide as Hfull; simpl.
    + split_and!; [done| |].
      * rewrite Hcp, drop_drop. rewrite <- drop_app_le by lia.
        f_equal. lia.
      * intros k. rewrite followers_snoc by done.
        destruct (decide (current_prefix c = k)) as [<-|Hne].
        -- rewrite lookup_insert_eq.
           rewrite decide_True by (split; [lia|done]).
           by rewrite pushed_snoc, Hmap.
        -- rewrite lookup_insert_ne by done.
           rewrite decide_False by (rewrite <- Hcp; tauto).
           by rewrite app_nil_r.
    + split_and!; [done| |].
      * rewrite Hcp. replace (length ts - n) with 0 by lia.
        replace (length ts + 1 - n) with 0 by lia. done.
      * intros k. rewrite followers_snoc by done.
        rewrite decide_False by lia. by rewrite app_nil_r.
Qed.

Lemma lookup_new_chain n k : mapping (new_chain n) !! k = None.
Proof. apply lookup_empty. Qed.
End training_more.

(** * Further properties of training *)

(** X1: [add(in, resetprefix)] adds the white-space separated words of the
    stream, in order, one [add] each, after clearing the current prefix when
    [resetprefix] is set; when this returns, the stream is at its end with
    [eofbit] and [failbit] set. *)
Theorem add_stream_tokens (text : string) (resetprefix : bool) (c : chain) :
  add_stream (stream_of text) resetprefix c =
    c' ← add_all (String.words text)
           (if resetprefix
            then {| mapping := mapping c; current_prefix := [];
                    prefix_len := prefix_len c |}
            else c);
    Ok ({| buf := EmptyString; eofbit := true; failbit := true |}, c').
Proof. apply add_stream_words. Qed.

(** X2: after a fresh chain of positive prefix length [n] was trained on the
    tokens [ts], the valid prefixes are the windows of [n] tokens of [ts]
    that are followed by a token. *)
Theorem trained_valid_prefixes (n : nat) (ts : list string) (c : chain)
    (k : prefix) :
  0 < n → add_all ts (new_chain n) = Ok c →
  isValidPrefix k c = true ↔ k ∈ windows n (removelast ts).
Proof.
  intros Hn Hrun.
  destruct (add_all_fresh n ts Hn) as (c' & Hrun' & _ & _ & Hdom).
  rewrite Hrun in Hrun'. injection Hrun' as <-.
  rewrite isValidPrefix_true, <- elem_of_dom, Hdom.
  apply elem_of_list_to_set.
Qed.

Lemma trained_valid_prefixes_witness :
  isValidPrefix ["the"; "cat"] the_cat = true
  ↔ ["the"; "cat"] ∈ windows 2 (removelast ["the"; "cat"; "sat"]).
Proof.
  apply (trained_valid_prefixes 2 ["the"; "cat"; "sat"] the_cat);
    [lia|reflexivity].
Defined.

(** X3: after a fresh chain of positive prefix length [n] was trained on the
    tokens [ts], the successor list of a prefix holds the tokens that follow
    its occurrences in [ts], in the order of the occurrences and with
    repetitions; a prefix is a key exactly when that list is not empty. *)
Theorem trained_successors (n : nat) (ts : list string) (c : chain)
    (k : prefix) (v : list string) :
  0 < n → add_all ts (new_chain n) = Ok c →
  mapping c !! k = Some v ↔ v = followers n k ts ∧ v ≠ [].
Proof.
  intros Hn Hrun.
  destruct (add_all_from n ts (new_chain n) Hn eq_refl eq_refl)
    as (c' & Hrun' & _ & _ & Hmap).
  rewrite Hrun in Hrun'. injection Hrun' as <-.
  rewrite Hmap, lookup_new_chain. unfold pushed.
  case_decide as Hf; simpl.
  - split; [done|]. intros [-> Hne]. done.
  - split; [by intros [= <-]|]. by intros [-> _].
Qed.

Lemma trained_successors_witness :
  ∃ c, add_all ["a"; "b"; "a"; "b"; "c"; "a"; "b"; "a"] (new_chain 2) = Ok c ∧
       (mapping c !! ["a"; "b"] = Some ["a"; "c"; "a"]
        ↔ ["a"; "c"; "a"]
            = followers 2 ["a"; "b"] ["a"; "b"; "a"; "b"; "c"; "a"; "b"; "a"]
          ∧ ["a"; "c"; "a"] ≠ []).
Proof.
  eexists. split; [reflexivity|].
  apply (trained_successors 2); [lia|reflexivity].
Defined.

(** X4: [add(in, true)] on a chain of positive prefix length [n] leaves as
    current prefix the last [n] words of the stream, or all of them when
    there are fewer, and keeps the prefix length. *)
Theorem add_stream_reset_cursor (text : string) (c0 c : chain) (i : istream) :
  0 < prefix_len c0 → add_stream (stream_of text) true c0 = Ok (i, c) →
  current_prefix c
    = drop (length (String.words text) - prefix_len c0) (String.words text)
  ∧ prefix_len c = prefix_len c0.
Proof.
  intros Hn. rewrite add_stream_words.
  destruct (add_all_from (prefix_len c0) (String.words text)
              {| mapping := mapping c0; current_prefix := [];
                 prefix_len := prefix_len c0 |} Hn eq_refl eq_refl)
    as (c' & -> & Hlen & Hcp & _).
  simpl. by intros [= _ <-].
Qed.

Lemma add_stream_reset_cursor_witness :
  ∃ i c, add_stream (stream_of "a dog  ran off") true the_cat = Ok (i, c) ∧
         current_prefix c = ["ran"; "off"] ∧ prefix_len c = 2.
Proof.
  eexists _, _. split; [reflexivity|].
  eapply (add_stream_reset_cursor "a dog  ran off" the_cat);
    [simpl; lia|reflexivity].
Defined.

(** X5: a second [add(in)] without reset continues the first one: the two
    calls train the chain like one call on the words of both streams. *)
Theorem add_stream_twice (t1 t2 : string) (r : bool) (c0 c1 : chain)
    (i1 : istream) :
  add_stream (stream_of t1) r c0 = Ok (i1, c1) →
  add_stream (stream_of t2) false c1 =
    c2 ← add_all (String.words t1 ++ String.words t2)
           (if r then {| mapping := mapping c0; current_prefix := [];
                         prefix_len := prefix_len c0 |}
            else c0);
    Ok ({| buf := EmptyString; eofbit := true; failbit := true |}, c2).
Proof.
  rewrite !add_stream_words, add_all_app.
  destruct (add_all (String.words t1) _) as [c| |]; simpl; [|done..].
  by intros [= _ <-].
Qed.

Lemma add_stream_twice_witness :
  ∃ i1 c1, add_stream (stream_of "the cat") false (new_chain 2) = Ok (i1, c1) ∧
    add_stream (stream_of "sat on") false c1 =
      c2 ← add_all (String.words "the cat" ++ String.words "sat on")
             (new_chain 2);
      Ok ({| buf := EmptyString; eofbit := true; failbit := true |}, c2).
Proof.
  eexists _, _. split; [reflexivity|].
  eapply (add_stream_twice "the cat" "sat on" false (new_chain 2)).
  reflexivity.
Defined.

(** X6: [add(in, true)] on a chain of positive prefix length [n] makes no
    pair across the reset: each successor list is the one before the call
    followed by the tokens that follow the prefix inside the new stream. *)
Theorem add_stream_reset_pairs (text : string) (c0 c : chain) (i : istream)
    (k : prefix) :
  0 < prefix_len c0 → add_stream (stream_of text) true c0 = Ok (i, c) →
  mapping c !! k =
    pushed (mapping c0 !! k)
      (followers (prefix_len c0) k (String.words text)).
Proof.
  intros Hn. rewrite add_stream_words.
  destruct (add_all_from (prefix_len c0) (String.words text)
              {| mapping := mapping c0; current_prefix := [];
                 prefix_len := prefix_len c0 |} Hn eq_refl eq_refl)
    as (c' & -> & _ & _ & Hmap).
  simpl. intros [= _ <-]. apply Hmap.
Qed.

Lemma add_stream_reset_pairs_witness :
  ∃ i c, add_stream (stream_of "the cat ran") true the_cat = Ok (i, c) ∧
         mapping c !! ["cat"; "sat"] =
           pushed (mapping the_cat !! ["cat"; "sat"])
             (followers 2 ["cat"; "sat"] (String.words "the cat ran")).
Proof.
  eexists _, _. split; [reflexivity|].
  eapply (add_stream_reset_pairs "the cat ran" the_cat);
    [simpl; lia|reflexivity].
Defined.

(** * More on generation *)

Section generation_more.
Implicit Types (c : chain) (w : world) (s : ostream) (ws ext : list string).

Lemma words_of_app s1 s2 : words_of (s1 ++ s2) = words_of s1 ++ words_of s2.
Proof. induction s1 as [|[] s1 IH]; simpl; by rewrite ?IH. Qed.

Lemma words_of_spaced_words ws : words_of (spaced_words ws) = ws.
Proof. induction ws as [|x ws IH]; simpl; by rewrite ?IH. Qed.

Lemma spaced_words_app ws1 ws2 :
  spaced_words (ws1 ++ ws2) = spaced_words ws1 ++ spaced_words ws2.
Proof. induction ws1 as [|x ws1 IH]; simpl; by rewrite ?IH. Qed.

Lemma words_written_words_of s : words_written s = length (words_of s).
Proof. induction s as [|[] s IH]; simpl; by rewrite ?IH. Qed.

(** The first loop writes the tokens of the cursor. *)
Lemma generate_head_shape todo i cp s s1 :
  generate_head todo i cp s = Ok s1 →
  s1 = s ++ spaced_words (take todo (drop i cp)).
Proof.
  revert i s. induction todo as [|todo IH]; intros i s; simpl.
  - intros [= <-]. by rewrite app_nil_r.
  - unfold at_. destruct (cp !! i) as [x|] eqn:Hx; simpl; [|done].
    intros ->%IH. rewrite <- app_assoc. f_equal.
    rewrite (drop_S cp x i Hx). done.
Qed.

Lemma chained_snoc m n ws x v :
  n ≤ length ws → m !! drop (length ws - n) ws = Some v → x ∈ v →
  chained m n ws → chained m n (ws ++ [x]).
Proof.
  intros Hlen Hv Hx Hch i y Hy.
  destruct (decide (i + n < length ws)) as [Hlt|Hge].
  - rewrite lookup_app_l in Hy by done.
    destruct (Hch i y Hy) as (v' & Hv' & Hy'). exists v'. split; [|done].
    rewrite drop_app_le by lia. rewrite take_app_le; [done|].
    rewrite length_drop. lia.
  - assert (i + n = length ws) as Hi.
    { apply lookup_lt_Some in Hy. rewrite length_app in Hy. simpl in Hy. lia. }
    rewrite Hi, list_lookup_middle in Hy by done. injection Hy as <-.
    exists v. split; [|done].
    rewrite drop_app_le by lia.
    replace i with (length ws - n) by lia.
    rewrite take_app_le by (rewrite length_drop; lia).
    rewrite take_ge by (rewrite length_drop; lia). done.
Qed.

(** The second loop writes successors of the windows it passes, and stops
    early only in front of a window that is no key. *)
Lemma generate_walk_chained todo s c w s' c' w' ws :
  generate_walk todo s c w = Ok (s', c', w') →
  keys_have_length c →
  isValidPrefix (current_prefix c) c = true →
  prefix_len c ≤ length ws →
  drop (length ws - prefix_len c) ws = current_prefix c →
  chained (mapping c) (prefix_len c) ws →
  ∃ ext, s' = s ++ spaced_words ext ∧ length ext ≤ todo ∧
         (0 < todo → 0 < length ext) ∧
         chained (mapping c) (prefix_len c) (ws ++ ext) ∧
         (length ext < todo →
          isValidPrefix
            (drop (length (ws ++ ext) - prefix_len c) (ws ++ ext)) c = false).
Proof.
  revert s c w ws. induction todo as [|todo IH];
    intros s c w ws Hrun Hk Hvalid Hlen Hcur Hch.
  - injection Hrun as <- _ _. exists []. rewrite !app_nil_r.
    split_and!; [done|done|simpl; lia|done|simpl; lia].
  - cbn [generate_walk] in Hrun.
    destruct (subscript_valid c Hvalid) as (v & Hv & Hsub).
    rewrite Hsub in Hrun. cbv zeta in Hrun. unfold random in Hrun.
    destruct (modulo _ (length v)) as [j| |]; simpl in Hrun; [|done..].
    destruct (v !! j) as [wd|] eqn:Hwd; [|done].
    apply list_elem_of_lookup_2 in Hwd.
    pose proof Hvalid as [v0 Hv0]%isValidPrefix_true.
    pose proof (Hk _ _ Hv0) as Hcl. simpl in Hcl.
    destruct (current_prefix c) as [|x0 pref0] eqn:Hcp; simpl in Hrun; [done|].
    assert (chained (mapping c) (prefix_len c) (ws ++ [wd])) as Hch'.
    { eapply chained_snoc; [done| |done|done]. by rewrite Hcur. }
    assert (drop (length (ws ++ [wd]) - prefix_len c) (ws ++ [wd])
            = push_back pref0 wd) as Hcur'.
    { rewrite length_app. simpl in *.
      replace (length ws + 1 - prefix_len c)
        with (length ws - prefix_len c + 1) by lia.
      rewrite drop_app_le by lia. rewrite <- drop_drop, Hcur. done. }
    destruct (isValidPrefix (push_back pref0 wd) _) eqn:Hnext.
    + apply (IH _ _ _ (ws ++ [wd])) in Hrun; try done.
      * destruct Hrun as (ext & -> & Hle & _ & Hch'' & Hstop).
        simpl in Hch'', Hstop. rewrite <- app_assoc in Hch'', Hstop.
        exists (wd :: ext). rewrite <- app_assoc.
        split_and!; [done|simpl; lia|simpl; lia|done|].
        simpl. intros Hlt. apply Hstop. lia.
      * simpl. rewrite length_app. simpl. lia.
    + injection Hrun as <- _ _. exists [wd].
      split_and!; [done|simpl; lia|simpl; lia|done|].
      intros _. by rewrite Hcur'.
Qed.

(** What a successful [generate] has written. *)
Lemma generate_shape s nwords pref c w s' c' w' :
  keys_have_length c →
  generate s nwords pref c w = Ok (s', c', w') →
  ∃ ws, s' = s ++ spaced_words ws ++ [Endl] ∧
        isValidPrefix (take (prefix_len c) ws) c = true ∧
        (isValidPrefix pref c = true → take (prefix_len c) ws = pref) ∧
        prefix_len c ≤ length ws ≤ prefix_len c `max` nwords ∧
        (prefix_len c < nwords → prefix_len c < length ws) ∧
        chained (mapping c) (prefix_len c) ws ∧
        (length ws < nwords →
         isValidPrefix (drop (length ws - prefix_len c) ws) c = false).
Proof.
  intros Hk. unfold generate.
  destruct (if isValidPrefix pref c then Ok (pref, w) else randomPrefix c w)
    as [[cp w1]| |] eqn:Hstart; simpl; [|done..].
  assert (isValidPrefix cp c = true ∧
          (isValidPrefix pref c = true → cp = pref)) as [Hcp Hpref].
  { destruct (isValidPrefix pref c) eqn:Hp.
    - by injection Hstart as <- <-.
    - split; [by eapply randomPrefix_valid|done]. }
  pose proof Hcp as [v0 Hv0]%isValidPrefix_true.
  pose proof (Hk _ _ Hv0) as Hcl. simpl in Hcl.
  destruct (generate_head (prefix_len c) 0 cp s) as [s1| |] eqn:Hhead;
    simpl; [|done..].
  apply generate_head_shape in Hhead.
  rewrite drop_0, take_ge in Hhead by lia.
  destruct (generate_walk _ s1 _ _) as [[[s2 c2] w3]| |] eqn:Hwalk;
    simpl; [|done..].
  intros [= <- <- <-].
  apply (generate_walk_chained _ _ _ _ _ _ _ cp) in Hwalk; simpl; try done.
  - destruct Hwalk as (ext & -> & Hle & Hpos & Hch & Hstop).
    simpl in Hch, Hstop. exists (cp ++ ext).
    rewrite Hhead, spaced_words_app, <- !app_assoc.
    rewrite take_app_le, take_ge by lia.
    rewrite length_app.
    split_and!; try done; try lia.
    intros Hlt. rewrite length_app in Hstop. apply Hstop. lia.
  - lia.
  - rewrite Hcl, Nat.sub_diag. apply drop_0.
  - intros i x Hx. apply lookup_lt_Some in Hx. lia.
Qed.

(** ** The random source *)







(** The loop of [randomPrefix] stops at the entry of index [i]. *)
Lemma randomPrefix_loop_index (it : list entry) j i pref :
  j ≤ i → i - j < length it →
  ∃ e, it !! (i - j) = Some e ∧ randomPrefix_loop it j i pref = e.1.
Proof.
  revert j pref. induction it as [|e it IH]; intros j pref Hj Hlen;
    [simpl in Hlen; lia|].
  cbn [randomPrefix_loop]. rewrite decide_True by done.
  destruct (decide (i = j)) as [->|Hne].
  - rewrite Nat.sub_diag. exists e. split; [done|].
    destruct it as [|e' it']; [done|].
    cbn [randomPrefix_loop]. by rewrite decide_False by lia.
  - destruct (IH (S j) e.1) as (e' & He' & ->); [lia|simpl in Hlen; lia|].
    exists e'. split; [|done].
    replace (i - j) with (S (i - S j)) by lia. done.
Qed.
End generation_more.

(** * Further properties of generation *)

(** X7: on a chain that satisfies the state invariant, a call of [generate]
    that returns has appended to the sink a sequence of words, each followed
    by one space, and then a line break; the words are at least [prefix_len]
    and at most the larger of [prefix_len] and [nwords], and more than
    [prefix_len] when [nwords] is larger than [prefix_len]. *)
Theorem generate_output_shape (s s' : ostream) (nwords : nat) (pref : prefix)
    (c c' : chain) (w w' : world) :
  chain_inv c → generate s nwords pref c w = Ok (s', c', w') →
  ∃ ws, s' = s ++ spaced_words ws ++ [Endl] ∧
        prefix_len c ≤ length ws ≤ prefix_len c `max` nwords ∧
        (prefix_len c < nwords → prefix_len c < length ws).
Proof.
  intros (Hk & _ & _) Hgen.
  destruct (generate_shape _ _ _ _ _ _ _ _ Hk Hgen)
    as (ws & -> & _ & _ & Hlen & Hmore & _).
  by exists ws.
Qed.

Lemma generate_output_shape_witness :
  ∃ s' c' w',
    generate [] 5 ["a"; "b"] a_b_chain counting_world = Ok (s', c', w') ∧
    ∃ ws, s' = [] ++ spaced_words ws ++ [Endl] ∧
          prefix_len a_b_chain ≤ length ws ≤ prefix_len a_b_chain `max` 5 ∧
          (prefix_len a_b_chain < 5 → prefix_len a_b_chain < length ws).
Proof.
  eexists _, _, _. split; [vm_compute; reflexivity|].
  eapply (generate_output_shape [] _ 5 ["a"; "b"] a_b_chain _ counting_world);
    [compute_done|vm_compute; reflexivity].
Defined.

(** X8: on a chain that satisfies the state invariant, the words a
    successful [generate] writes begin with a valid prefix, the given one
    when it is valid, and every later word is in the successor list of the
    [prefix_len] words written just before it. *)
Theorem generate_follows_chain (s s' : ostream) (nwords : nat) (pref : prefix)
    (c c' : chain) (w w' : world) :
  chain_inv c → generate s nwords pref c w = Ok (s', c', w') →
  ∃ ws, s' = s ++ spaced_words ws ++ [Endl] ∧
        isValidPrefix (take (prefix_len c) ws) c = true ∧
        (isValidPrefix pref c = true → take (prefix_len c) ws = pref) ∧
        chained (mapping c) (prefix_len c) ws.
Proof.
  intros (Hk & _ & _) Hgen.
  destruct (generate_shape _ _ _ _ _ _ _ _ Hk Hgen)
    as (ws & -> & Hstart & Hpref & _ & _ & Hch & _).
  by exists ws.
Qed.

Lemma generate_follows_chain_witness :
  ∃ s' c' w',
    generate [] 5 ["a"; "b"] a_b_chain counting_world = Ok (s', c', w') ∧
    ∃ ws, s' = [] ++ spaced_words ws ++ [Endl] ∧
          isValidPrefix (take (prefix_len a_b_chain) ws) a_b_chain = true ∧
          (isValidPrefix ["a"; "b"] a_b_chain = true →
           take (prefix_len a_b_chain) ws = ["a"; "b"]) ∧
          chained (mapping a_b_chain) (prefix_len a_b_chain) ws.
Proof.
  eexists _, _, _. split; [vm_compute; reflexivity|].
  eapply (generate_follows_chain [] _ 5 ["a"; "b"] a_b_chain _ counting_world);
    [compute_done|vm_compute; reflexivity].
Defined.

(** X9: on a chain that satisfies the state invariant, a successful
    [generate] writes fewer than [nwords] words only when the last
    [prefix_len] words it wrote are not a valid prefix. *)
Theorem generate_stops_at_dead_end (s s' : ostream) (nwords : nat)
    (pref : prefix) (c c' : chain) (w w' : world) :
  chain_inv c → generate s nwords pref c w = Ok (s', c', w') →
  ∃ ws, s' = s ++ spaced_words ws ++ [Endl] ∧
        (length ws < nwords →
         isValidPrefix (drop (length ws - prefix_len c) ws) c = false).
Proof.
  intros (Hk & _ & _) Hgen.
  destruct (generate_shape _ _ _ _ _ _ _ _ Hk Hgen)
    as (ws & -> & _ & _ & _ & _ & _ & Hstop).
  by exists ws.
Qed.

Lemma generate_stops_at_dead_end_witness :
  ∃ s' c' w',
    generate [] 9 ["a"; "b"] a_b_chain counting_world = Ok (s', c', w') ∧
    ∃ ws, s' = [] ++ spaced_words ws ++ [Endl] ∧
          (length ws < 9 →
           isValidPrefix (drop (length ws - prefix_len a_b_chain) ws)
             a_b_chain = false).
Proof.
  eexists _, _, _. split; [vm_compute; reflexivity|].
  eapply (generate_stops_at_dead_end [] _ 9 ["a"; "b"] a_b_chain _ counting_world);
    [compute_done|vm_compute; reflexivity].
Defined.

(** X10: a call of [generate], in either form, that returns leaves the map
    and the prefix length as they were, although it reads the map with
    [operator[]], and leaves a valid prefix as current prefix. *)
Theorem generate_keeps_model (s s' : ostream) (nwords : nat) (pref : prefix)
    (c c' : chain) (w w' : world) :
  generate s nwords pref c w = Ok (s', c', w')
  ∨ generate_random s nwords c w = Ok (s', c', w') →
  mapping c' = mapping c ∧ prefix_len c' = prefix_len c ∧
  isValidPrefix (current_prefix c') c' = true.
Proof.
  assert (∀ p w0, generate s nwords p c w0 = Ok (s', c', w') →
            mapping c' = mapping c ∧ prefix_len c' = prefix_len c ∧
            isValidPrefix (current_prefix c') c' = true) as Hgen.
  { intros p w0 (Hm & Hl & Hv & _)%generate_spec. split_and!; [done..|].
    unfold isValidPrefix in *. by rewrite Hm. }
  intros [H|H]; [by eapply Hgen|].
  unfold generate_random in H.
  destruct (randomPrefix c w) as [[start w1]| |]; simpl in H; [|done..].
  by eapply Hgen.
Qed.

Lemma generate_keeps_model_witness :
  ∃ s' c' w',
    generate [] 5 ["x"] a_b_chain counting_world = Ok (s', c', w') ∧
    mapping c' = mapping a_b_chain ∧ prefix_len c' = prefix_len a_b_chain ∧
    isValidPrefix (current_prefix c') c' = true.
Proof.
  eexists _, _, _. split; [vm_compute; reflexivity|].
  eapply (generate_keeps_model [] _ 5 ["x"] a_b_chain _ counting_world).
  left. vm_compute. reflexivity.
Defined.



(** X12: on a chain with entries [randomPrefix] returns the key at position
    [random() % size()] of the iteration order of the map, after one draw
    from the generator, which it seeds first when needed. *)
Theorem randomPrefix_index (c : chain) (w w' : world) (k : prefix) :
  randomPrefix c w = Ok (k, w') →
  ∃ v, entries c !! (pending (seed_if_needed w) 0 `mod` size (mapping c))
         = Some (k, v) ∧
       mapping c !! k = Some v ∧
       w' = (random (seed_if_needed w)).2.
Proof.
  unfold randomPrefix, random, modulo.
  destruct (size (mapping c)) as [|n] eqn:Hsize; [done|].
  assert (pending (seed_if_needed w) 0 `mod` S n < S n) as Hi
    by (apply Nat.mod_upper_bound; lia).
  revert Hi. generalize (pending (seed_if_needed w) 0 `mod` S n).
  intros i Hi. cbn [mbind result_bind]. intros [= <- <-].
  destruct (randomPrefix_loop_index (entries c) 0 i [])
    as ([k v] & Hk & ->); [lia| |].
  { by rewrite Nat.sub_0_r, length_entries, Hsize. }
  rewrite Nat.sub_0_r in Hk. exists v. split_and!; [done| |done].
  apply elem_of_entries. by eapply list_elem_of_lookup_2.
Qed.

Lemma randomPrefix_index_witness :
  ∃ v, entries a_b_chain
         !! (pending (seed_if_needed seeded_world) 0
               `mod` size (mapping a_b_chain))
         = Some (["b"; "a"], v) ∧
       mapping a_b_chain !! ["b"; "a"] = Some v ∧
       (random (seed_if_needed seeded_world)).2
         = (random (seed_if_needed seeded_world)).2.
Proof.
  apply (randomPrefix_index a_b_chain seeded_world
           (random (seed_if_needed seeded_world)).2 ["b"; "a"]).
  reflexivity.
Defined.
(** * More on reading and on what training keeps *)

Section reading_more.
Implicit Types (c : chain) (line text : string) (k : prefix) (es : list entry).

Lemma parseLine_read_state line c : read_state c → read_state (parseLine line c).2.
Proof.
  intros Hc. rewrite parseLine_eq.
  destruct (find " : " line) as [cpos|]; [|done]. cbv zeta.
  pose proof (fields_nonempty (substr 0 (Some cpos) line)) as Htemp.
  destruct (fields (substr 0 (Some cpos) line)) as [|p temp]; [done|].
  case_decide; [|done]. right. simpl. split; [lia|].
  unfold isValidPrefix. simpl. by rewrite lookup_insert_eq.
Qed.

Lemma read_loop_read_state fuel (s : istream) c :
  read_state c → read_state (read_loop fuel s c).2.
Proof.
  revert s c. induction fuel as [|fuel IH]; intros s c Hc; [done|].
  simpl. destruct (good s); [|done].
  destruct (getline s) as [line s']. apply IH.
  destruct (good s'); [|done]. by apply parseLine_read_state.
Qed.

Lemma foldl_parseLine_skip (ls : list string) c :
  Forall (λ line, find " : " line = None) ls →
  foldl (λ c line, (parseLine line c).2) c ls = c.
Proof.
  revert c. induction ls as [|l ls IH]; intros c Hls; [done|].
  apply Forall_cons in Hls as [Hl Hls]. simpl.
  unfold parseLine at 2. rewrite Hl. simpl. by apply IH.
Qed.

Lemma collect_snoc k es e :
  collect k (es ++ [e]) = collect k es ++ (if decide (e.1 = k) then e.2 else []).
Proof.
  induction es as [|e' es IH]; simpl; [by rewrite app_nil_r|].
  by rewrite IH, app_assoc.
Qed.

Lemma pushed_nonempty o f : f ≠ [] → pushed o f = Some (default [] o ++ f).
Proof. intros Hf. unfold pushed. by rewrite decide_False. Qed.

(** The chain after the lines of [es], in which a prefix may come back, have
    been parsed into a chain reset by [read]. *)
Lemma parse_entry_bodies_collect n es :
  0 < n →
  Forall (λ e, length e.1 = n ∧ e.2 ≠ [] ∧ serializable_entry e.1 e.2) es →
  let c := foldl (λ c line, (parseLine line c).2) (new_chain 0)
             (entry_body <$> es) in
  (∀ k, mapping c !! k = pushed None (collect k es)) ∧
  (es = [] ∧ c = new_chain 0 ∨ es ≠ [] ∧ prefix_len c = n).
Proof.
  intros Hn. induction es as [|[k0 v0] es IH] using rev_ind; intros Hes.
  { split; [intros k; apply lookup_empty|by left]. }
  apply Forall_app in Hes as [Hes [(Hlen & Hv & Hser) _]%Forall_cons].
  cbn [fst snd] in *.
  destruct (IH Hes) as [Hmap Hstate]. clear IH.
  rewrite fmap_app, foldl_app. cbn [fmap list_fmap foldl].
  set (c := foldl _ _ (entry_body <$> es)) in *.
  assert (k0 ≠ []) as Hk0 by (destruct k0; [simpl in Hlen; lia|done]).
  rewrite parseLine_entry_body; [|done|done|done|].
  - cbn [snd mapping prefix_len]. split.
    + intros k. rewrite collect_snoc. cbn [fst snd].
      destruct (decide (k0 = k)) as [<-|Hne].
      * rewrite lookup_insert_eq, Hmap, <- pushed_pushed.
        by rewrite (pushed_nonempty _ v0).
      * rewrite lookup_insert_ne by done. by rewrite Hmap, app_nil_r.
    + right. split; [by destruct es|done].
  - destruct Hstate as [[_ ->]|[_ ->]]; [by left|by right].
Qed.

(** Training only adds: a successor list grows at its end. *)
Lemma add_grows t c c' k v :
  add t c = Ok c' → mapping c !! k = Some v →
  ∃ v', mapping c' !! k = Some (v ++ v').
Proof.
  unfold add. case_decide as Hfull.
  - rewrite subscript_push_back_eq.
    destruct (pop_front _) as [cp| |]; simpl; [|done..].
    intros [= <-] Hv. simpl.
    destruct (decide (current_prefix c = k)) as [->|Hne].
    + rewrite lookup_insert_eq, Hv. by eexists.
    + rewrite lookup_insert_ne by done. exists []. by rewrite app_nil_r.
  - intros [= <-] Hv. exists []. by rewrite app_nil_r.
Qed.

Lemma add_loop_grows fuel (i i' : istream) c c' k v :
  add_loop fuel i c = Ok (i', c') → mapping c !! k = Some v →
  ∃ v', mapping c' !! k = Some (v ++ v').
Proof.
  revert i c v. induction fuel as [|fuel IH]; intros i c v; simpl.
  - intros [= _ <-] Hv. exists []. by rewrite app_nil_r.
  - destruct (extract i) as [[b|] i1].
    + destruct (add b c) as [c1| |] eqn:Hadd; simpl; [|done..].
      intros Hrun Hv.
      destruct (add_grows _ _ _ _ _ Hadd Hv) as [v1 Hv1].
      destruct (IH _ _ _ Hrun Hv1) as [v2 Hv2].
      exists (v1 ++ v2). by rewrite app_assoc.
    + intros [= _ <-] Hv. exists []. by rewrite app_nil_r.
Qed.
End reading_more.

(** * Further properties of reading and training *)

(** X14: whatever the stream holds, [read] leaves either the prefix length
    0 with no entry and an empty current prefix (no line was parsed), or a
    positive prefix length with a current prefix that is a key of the map. *)
Theorem read_leaves_state (i : istream) (c0 : chain) :
  let c := (read i c0).2 in
  (prefix_len c = 0 ∧ mapping c = ∅ ∧ current_prefix c = []) ∨
  (0 < prefix_len c ∧ isValidPrefix (current_prefix c) c = true).
Proof. apply read_loop_read_state. by left. Qed.

(** X15: when no line of the input that ends with a line break holds the
    separator, as for the empty input, [read] leaves the chain without
    entries and with prefix length 0, and on that chain [add] drops a token
    from the empty current prefix, which is undefined behaviour. *)
Theorem read_nothing_then_add (text t : string) (c0 : chain) :
  Forall (λ line, find " : " line = None) (complete_lines text) →
  (read (stream_of text) c0).2 = new_chain 0 ∧
  add t (read (stream_of text) c0).2 = Undefined.
Proof.
  intros Hlines.
  assert ((read (stream_of text) c0).2 = new_chain 0) as ->; [|done].
  rewrite read_stream_of. by apply foldl_parseLine_skip.
Qed.

Lemma read_nothing_then_add_witness :
  (read (stream_of (String.append "hello world" (String newline "the end")))
     the_cat).2 = new_chain 0 ∧
  add "x"
    (read (stream_of (String.append "hello world" (String newline "the end")))
       the_cat).2 = Undefined.
Proof.
  apply (read_nothing_then_add
           (String.append "hello world" (String newline "the end")) "x" the_cat).
  compute_done.
Defined.

(** X16: when the stream holds lines of the format, all with prefixes of the
    same positive number of tokens, a prefix that comes on several lines gets
    the successors of all of them, in the order of the lines: [read]
    appends, it does not replace. *)
Theorem read_collects_lines (n : nat) (es : list entry) (c0 : chain)
    (k : prefix) :
  0 < n →
  Forall (λ e, length e.1 = n ∧ e.2 ≠ [] ∧ serializable_entry e.1 e.2) es →
  mapping (read (stream_of (entry_lines es)) c0).2 !! k
    = pushed None (collect k es).
Proof.
  intros Hn Hes. rewrite read_stream_of.
  rewrite complete_lines_entry_lines
    by (eapply Forall_impl; [exact Hes|];
        intros ? (_ & _ & ?); by apply serializable_one_line).
  by apply (parse_entry_bodies_collect n es Hn Hes).
Qed.

Lemma read_collects_lines_witness :
  mapping
    (read (stream_of (entry_lines [(["the"; "cat"], ["sat"]);
                                   (["a"; "dog"], ["ran"]);
                                   (["the"; "cat"], ["ran"; "off"])]))
       (new_chain 5)).2 !! ["the"; "cat"]
  = pushed None (collect ["the"; "cat"]
                   [(["the"; "cat"], ["sat"]); (["a"; "dog"], ["ran"]);
                    (["the"; "cat"], ["ran"; "off"])]).
Proof.
  apply (read_collects_lines 2); [lia|compute_done].
Defined.

(** X17: training never removes anything: after [add], in either form, every
    prefix that was a key is still one, and its successor list is the old
    one with tokens added at its end. *)
Theorem training_only_adds (t : string) (i i' : istream) (r : bool)
    (c c' : chain) (k : prefix) (v : list string) :
  add t c = Ok c' ∨ add_stream i r c = Ok (i', c') →
  mapping c !! k = Some v →
  ∃ v', mapping c' !! k = Some (v ++ v').
Proof.
  intros [Hadd|Hadd] Hv; [by eapply add_grows|].
  unfold add_stream in Hadd. eapply add_loop_grows; [exact Hadd|].
  by destruct r.
Qed.

Lemma training_only_adds_witness :
  ∃ i' c', add_stream (stream_of "ran the cat ran") false the_cat = Ok (i', c') ∧
    ∃ v', mapping c' !! ["the"; "cat"] = Some (["sat"] ++ v').
Proof.
  eexists _, _. split; [reflexivity|].
  eapply (training_only_adds "" (stream_of "ran the cat ran") _ false the_cat);
    [right; reflexivity|reflexivity].
Defined.

(** X18: after [seed], forced or not, [isSeeded] holds and a further
    [seed(false)] changes nothing; [seed(false)] changes nothing on a seeded
    generator; [seed(true)] always reseeds, with the next value of the
    entropy source, or with 0 when it gives none. *)
Theorem seed_reseeds (force : bool) (w : world) :
  isSeeded (seed force w) = true ∧
  seed false (seed force w) = seed force w ∧
  (isSeeded w = true → seed false w = w) ∧
  pending (seed true w) = reseed w (hd 0 (entropy w)) ∧
  entropy (seed true w) = drop 1 (entropy w).
Proof.
  assert (isSeeded (seed force w) = true) as Hs.
  { unfold isSeeded, seed, getSeed.
    destruct (is_seeded w) eqn:Hw; destruct force; simpl;
      try done; by destruct (entropy w). }
  assert (∀ w0, isSeeded w0 = true → seed false w0 = w0) as Hid.
  { intros w0 Hw0. unfold isSeeded in Hw0. unfold seed. by rewrite Hw0. }
  split_and!; [done|by apply Hid|apply Hid| |].
  - unfold seed, getSeed. destruct (entropy w); reflexivity.
  - unfold seed, getSeed.
    destruct (entropy w) eqn:He; simpl; [done|by rewrite drop_0].
Qed.

